(** * Maxwell-Boltzmann simulation: a shallow embedding in Rocq

    The two components of the repository:
    - [src/src/components/SimulationCanvas.js]: the particle kinetics
      engine ([handleCollision] and the per-frame [updateParticles]);
    - [src/src/components/MBDistributionChart.js]: the modified
      Maxwell-Boltzmann density [mbDistribution] and the summaries derived
      from a density curve (mean energy, percentage above activation).

    JavaScript numbers are modelled as real numbers extended with the IEEE
    special values +Infinity, -Infinity and NaN, with the IEEE rules for
    these values; rounding and signed zero are not modelled (arithmetic on
    finite values is exact real arithmetic). *)

From Stdlib Require Import Reals Lra Psatz List Bool.
From Stdlib Require Strings.String Numbers.DecimalString.
Import ListNotations.
Open Scope R_scope.

(** ** JavaScript numbers *)

Inductive num : Type :=
| Fin (r : R)          (* a finite number *)
| Inf (pos : bool)     (* +Infinity when [pos = true], -Infinity otherwise *)
| NaN.

Definition Rltb (a b : R) : bool := if Rlt_dec a b then true else false.
Definition Reqb (a b : R) : bool := if Req_dec_T a b then true else false.

Module JS.

Definition neg (a : num) : num :=
  match a with
  | Fin r => Fin (- r)
  | Inf p => Inf (negb p)
  | NaN => NaN
  end.

Definition add (a b : num) : num :=
  match a, b with
  | NaN, _ | _, NaN => NaN
  | Fin r, Fin s => Fin (r + s)
  | Fin _, Inf p | Inf p, Fin _ => Inf p
  | Inf p, Inf q => if Bool.eqb p q then Inf p else NaN
  end.

Definition sub (a b : num) : num := add a (neg b).

(** Sign of a product with an infinite factor: positive iff the signs agree. *)
Definition mul (a b : num) : num :=
  match a, b with
  | NaN, _ | _, NaN => NaN
  | Fin r, Fin s => Fin (r * s)
  | Fin r, Inf p | Inf p, Fin r =>
      if Reqb r 0 then NaN else Inf (Bool.eqb p (Rltb 0 r))
  | Inf p, Inf q => Inf (Bool.eqb p q)
  end.

Definition div (a b : num) : num :=
  match a, b with
  | NaN, _ | _, NaN => NaN
  | Fin r, Fin s =>
      if Reqb s 0 then (if Reqb r 0 then NaN else Inf (Rltb 0 r))
      else Fin (r / s)
  | Fin _, Inf _ => Fin 0
  | Inf p, Fin s => if Reqb s 0 then Inf p else Inf (Bool.eqb p (Rltb 0 s))
  | Inf _, Inf _ => NaN
  end.

(** [Math.sqrt] *)
Definition sqrt (a : num) : num :=
  match a with
  | Fin r => if Rltb r 0 then NaN else Fin (R_sqrt.sqrt r)
  | Inf true => Inf true
  | Inf false => NaN
  | NaN => NaN
  end.

(** [Math.abs] *)
Definition abs (a : num) : num :=
  match a with
  | Fin r => Fin (Rabs r)
  | Inf _ => Inf true
  | NaN => NaN
  end.

(** [Math.exp] *)
Definition exp (a : num) : num :=
  match a with
  | Fin r => Fin (Rtrigo_def.exp r)
  | Inf true => Inf true
  | Inf false => Fin 0
  | NaN => NaN
  end.

(** [Math.cos] and [Math.sin] *)
Definition cos (a : num) : num :=
  match a with Fin r => Fin (Rtrigo_def.cos r) | _ => NaN end.

Definition sin (a : num) : num :=
  match a with Fin r => Fin (Rtrigo_def.sin r) | _ => NaN end.

(** [Math.pow(a, 1.5)]: the only exponent the program uses. *)
Definition pow15 (a : num) : num :=
  match a with
  | Fin r => if Rltb 0 r then Fin (Rpower r (3 / 2))
             else if Reqb r 0 then Fin 0 else NaN
  | Inf _ => Inf true
  | NaN => NaN
  end.

(** [Math.round]: the integer closest to [a], halves rounded up. *)
Definition round (a : num) : num :=
  match a with
  | Fin r => Fin (IZR (Zfloor (r + 1 / 2)))
  | Inf p => Inf p
  | NaN => NaN
  end.

(** [a < b]; every comparison with NaN is false. *)
Definition lt (a b : num) : bool :=
  match a, b with
  | NaN, _ | _, NaN => false
  | Fin r, Fin s => Rltb r s
  | Fin _, Inf p => p
  | Inf p, Fin _ => negb p
  | Inf p, Inf q => negb p && q
  end.

Definition gt (a b : num) : bool := lt b a.

Definition le (a b : num) : bool :=
  match a, b with
  | NaN, _ | _, NaN => false
  | _, _ => negb (lt b a)
  end.

Definition ge (a b : num) : bool := le b a.

(** [a === b] *)
Definition strict_eq (a b : num) : bool :=
  match a, b with
  | Fin r, Fin s => Reqb r s
  | Inf p, Inf q => Bool.eqb p q
  | _, _ => false
  end.

(** JavaScript truthiness of a number: [0] and [NaN] are falsy. *)
Definition truthy (a : num) : bool :=
  match a with
  | Fin r => negb (Reqb r 0)
  | Inf _ => true
  | NaN => false
  end.

End JS.

Declare Scope js_scope.
Delimit Scope js_scope with js.
Infix "+" := JS.add : js_scope.
Infix "-" := JS.sub : js_scope.
Infix "*" := JS.mul : js_scope.
Infix "/" := JS.div : js_scope.
Infix "<?" := JS.lt (at level 70) : js_scope.
Infix ">?" := JS.gt (at level 70) : js_scope.
Infix "<=?" := JS.le (at level 70) : js_scope.
Infix ">=?" := JS.ge (at level 70) : js_scope.
Infix "===" := JS.strict_eq (at level 70) : js_scope.

(** ** Kinetics engine ([SimulationCanvas.js]) *)

Module Sim.

Open Scope js_scope.

(** A particle object [{ x, y, vx, vy, radius }]. *)
Record particle : Type := mkParticle {
  x : num; y : num; vx : num; vy : num; radius : num
}.

Definition width : num := Fin 400.
Definition height : num := Fin 400.
Definition numParticles : nat := 50.
Definition baseSpeedFactor : num := Fin (1 / 2).
Definition restitution : num := Fin (9 / 10).

(** The initialisation loop body (lines 26-33): [Math.random() * width],
    [Math.random() * height] and the angle [Math.random() * 2 * Math.PI]
    are given as the draws [rx], [ry], [ra] in [[0, 1)]. *)
Definition initParticle (temp rx ry ra : num) : particle :=
  let x := rx * width in
  let y := ry * height in
  let angle := ra * Fin 2 * Fin PI in
  let speed := baseSpeedFactor * JS.sqrt temp in
  let vx := speed * JS.cos angle in
  let vy := speed * JS.sin angle in
  mkParticle x y vx vy (Fin 5).

(** The initialisation loop (lines 24-35), the draws [(rx, ry, ra)] of
    each particle given in index order. *)
Definition initParticles (temp : num) (draws : list (R * R * R)) : list particle :=
  map (fun d => let '(rx, ry, ra) := d in initParticle temp (Fin rx) (Fin ry) (Fin ra))
    draws.

(** [handleCollision(p1, p2)] (lines 40-56): the two particles after the
    call, which mutates only their velocities. *)
Definition handleCollision (p1 p2 : particle) : particle * particle :=
  let dx := x p2 - x p1 in
  let dy := y p2 - y p1 in
  let dist := JS.sqrt (dx * dx + dy * dy) in
  if dist === Fin 0 then (p1, p2) else
  let nx := dx / dist in
  let ny := dy / dist in
  let dvx := vx p2 - vx p1 in
  let dvy := vy p2 - vy p1 in
  let relVel := dvx * nx + dvy * ny in
  if relVel >? Fin 0 then (p1, p2) else
  let impulse := JS.neg (Fin 1 + restitution) * relVel / Fin 2 in
  (mkParticle (x p1) (y p1) (vx p1 - impulse * nx) (vy p1 - impulse * ny) (radius p1),
   mkParticle (x p2) (y p2) (vx p2 + impulse * nx) (vy p2 + impulse * ny) (radius p2)).

(** Position update (lines 75-78). *)
Definition move (p : particle) : particle :=
  mkParticle (x p + vx p) (y p + vy p) (vx p) (vy p) (radius p).

(** Wall collisions of one particle (lines 82-95): the x axis, then the
    y axis. *)
Definition wallX (p : particle) : particle :=
  if x p - radius p <? Fin 0 then
    mkParticle (radius p) (y p) (JS.abs (vx p)) (vy p) (radius p)
  else if x p + radius p >? width then
    mkParticle (width - radius p) (y p) (JS.neg (JS.abs (vx p))) (vy p) (radius p)
  else p.

Definition wallY (p : particle) : particle :=
  if y p - radius p <? Fin 0 then
    mkParticle (x p) (radius p) (vx p) (JS.abs (vy p)) (radius p)
  else if y p + radius p >? height then
    mkParticle (x p) (height - radius p) (vx p) (JS.neg (JS.abs (vy p))) (radius p)
  else p.

Definition wall (p : particle) : particle := wallY (wallX p).

(** Body of the pair loop for [p1 = particles[i]], [p2 = particles[j]]
    (lines 101-115). *)
Definition collidePair (p1 p2 : particle) : particle * particle :=
  let dx := x p2 - x p1 in
  let dy := y p2 - y p1 in
  let dist := JS.sqrt (dx * dx + dy * dy) in
  if dist <? radius p1 + radius p2 then
    let '(q1, q2) := handleCollision p1 p2 in
    let overlap := radius q1 + radius q2 - dist in
    let sepX := dx / dist * (overlap / Fin 2) in
    let sepY := dy / dist * (overlap / Fin 2) in
    (mkParticle (x q1 - sepX) (y q1 - sepY) (vx q1) (vy q1) (radius q1),
     mkParticle (x q2 + sepX) (y q2 + sepY) (vx q2) (vy q2) (radius q2))
  else (p1, p2).

(** The inner loop [for (j = i + 1; ...)] for a fixed [particles[i] = p]
    over the particles after it, in index order. *)
Fixpoint collideWith (p : particle) (rest : list particle)
  : particle * list particle :=
  match rest with
  | [] => (p, [])
  | q :: rest' =>
      let '(p', q') := collidePair p q in
      let '(p'', rest'') := collideWith p' rest' in
      (p'', q' :: rest'')
  end.

(** The outer loop [for (i = 0; ...)]: particle [i] meets every later
    particle, then the loop goes on with the updated later particles.
    [fuel] is the number of rounds; [collideWith] keeps the length. *)
Fixpoint collideRounds (fuel : nat) (ps : list particle) : list particle :=
  match fuel, ps with
  | S f, p :: rest =>
      let '(p', rest') := collideWith p rest in
      p' :: collideRounds f rest'
  | _, _ => ps
  end.

Definition particleCollisions (ps : list particle) : list particle :=
  collideRounds (length ps) ps.

(** Two particles the pair loop leaves as they are. *)
Definition apart (p1 p2 : particle) : Prop := collidePair p1 p2 = (p1, p2).

(** Thermostat (lines 120-130). *)
Definition speed (p : particle) : num :=
  JS.sqrt (vx p * vx p + vy p * vy p).

Definition sumSpeed (ps : list particle) : num :=
  fold_left (fun s p => s + speed p) ps (Fin 0).

Definition avgSpeed (ps : list particle) : num :=
  sumSpeed ps / Fin (INR (length ps)).

(** [avgSpeed || 1] *)
Definition orOne (a : num) : num := if JS.truthy a then a else Fin 1.

Definition rescale (scale : num) (p : particle) : particle :=
  mkParticle (x p) (y p) (vx p * scale) (vy p * scale) (radius p).

Definition thermostat (desiredAvgSpeed : num) (ps : list particle)
  : list particle :=
  let scale := desiredAvgSpeed / orOne (avgSpeed ps) in
  map (rescale scale) ps.

(** One frame of [updateParticles] at temperature [currentTemp]
    (drawing left out). *)
Definition step (currentTemp : num) (ps : list particle) : list particle :=
  let desiredAvgSpeed := baseSpeedFactor * JS.sqrt currentTemp in
  let ps1 := map move ps in
  let ps2 := map wall ps1 in
  let ps3 := particleCollisions ps2 in
  thermostat desiredAvgSpeed ps3.

Fixpoint steps (n : nat) (currentTemp : num) (ps : list particle)
  : list particle :=
  match n with
  | O => ps
  | S n' => steps n' currentTemp (step currentTemp ps)
  end.

(** A particle whose fields are all finite numbers. *)
Definition fparticle (x y vx vy r : R) : particle :=
  mkParticle (Fin x) (Fin y) (Fin vx) (Fin vy) (Fin r).

(** The same particle seen as a record of reals, for stating properties
    of ensembles whose fields are all finite. *)
Record rparticle : Type := mkR {
  rx : R; ry : R; rvx : R; rvy : R; rradius : R
}.

Definition embed (q : rparticle) : particle :=
  fparticle (rx q) (ry q) (rvx q) (rvy q) (rradius q).

(** Speed magnitude and sum in real arithmetic. *)
Definition rspeed (q : rparticle) : R :=
  sqrt (rvx q * rvx q + rvy q * rvy q).

Definition sumR (l : list R) : R := fold_right Rplus 0%R l.

(** Wall containment: finite position inside
    [[5, 395] x [5, 395]] (radius 5, width and height 400). *)
Definition inBox (p : particle) : Prop :=
  exists a b, x p = Fin a /\ y p = Fin b /\
    (5 <= a <= 395)%R /\ (5 <= b <= 395)%R.

Definition meanSpeedR (qs : list rparticle) : R :=
  (sumR (map rspeed qs) / INR (length qs))%R.

(** Scaling the velocity of a finite particle. *)
Definition rscale (s : R) (q : rparticle) : rparticle :=
  mkR (rx q) (ry q) (rvx q * s) (rvy q * s) (rradius q).

(** The value of a finite number (0 for the special values), to sum
    velocity components. *)
Definition rval (a : num) : R := match a with Fin r => r | _ => 0%R end.

(** Total momentum along one axis of an ensemble of unit masses. *)
Definition momentum (v : particle -> num) (ps : list particle) : R :=
  sumR (map (fun p => rval (v p)) ps).

(** A particle with finite fields, or one whose position the pair loop
    has turned into NaN while its velocity and radius stayed finite. *)
Definition wellFormed (p : particle) : Prop :=
  (exists a b c d r, p = fparticle a b c d r) \/
  (exists c d r, p = mkParticle NaN NaN (Fin c) (Fin d) (Fin r)).

End Sim.

(** ** Distribution model ([MBDistributionChart.js]) *)

Module Dist.

Open Scope js_scope.

(** [energies]: [0, 1, ..., 600] (lines 77-80). *)
Definition energiesN : nat := 600.
Definition energies : list num :=
  map (fun i => Fin (INR i)) (seq 0 (S energiesN)).

Definition totalParticles : num := Fin 50.
Definition sharpness : num := Fin 2.

(** [effectiveTemperature] (line 86). *)
Definition effectiveTemperature (T : num) : num := Fin (1 / 2) * T + Fin 50.

(** [mbDistribution] (lines 94-102). *)
Definition mbDistribution (E T : num) : num :=
  let T_eff := effectiveTemperature T in
  if T_eff <=? Fin 0 then Fin 0 else
  let norm := (Fin 2 / JS.sqrt (Fin PI)) * JS.pow15 (sharpness / T_eff) in
  Fin (72 / 100) * norm * JS.sqrt E * JS.exp (JS.neg E / T_eff) * totalParticles.

(** A chart point [{ x, y }]. *)
Record point : Type := mkPoint { px : num; py : num }.

(** [dynamicData] for the temperature [T] (lines 166-169, 238-241). *)
Definition dynamicData (T : num) : list point :=
  map (fun E => mkPoint E (mbDistribution E T)) energies.

(** Average energy (Effect 3, lines 193-199). *)
Definition meanSums (data : list point) : num * num :=
  fold_left (fun '(sumE, sumF) pt => (sumE + px pt * py pt, sumF + py pt))
    data (Fin 0, Fin 0).

Definition E_mean (data : list point) : num :=
  let '(sumE, sumF) := meanSums data in
  if JS.truthy sumF then sumE / sumF else Fin 0.

(** The most probable energy (Effect 3, lines 170-177, and
    [handleRecordData], lines 242-249): the pair [(maxY, E_mode)] after a
    scan that keeps the first point of largest density, starting from
    [maxY = -Infinity] and [E_mode = energies[0]]. *)
Definition modeSearch (data : list point) : num * num :=
  fold_left (fun '(maxY, E_mode) pt =>
               if py pt >? maxY then (py pt, px pt) else (maxY, E_mode))
    data (Inf false, nth 0 energies NaN).

(** [handleRecordData] (lines 250-255): [percentageAbove] before its
    formatting with [toFixed(2)]. *)
Definition activationThreshold (showCatalyst : bool) : num :=
  if showCatalyst then Fin 300 else Fin 400.

Definition areaOf (data : list point) : num :=
  fold_left (fun sum pt => sum + py pt) data (Fin 0).

Definition percentageAbove (showCatalyst : bool) (data : list point) : num :=
  let totalArea := areaOf data in
  let threshold := activationThreshold showCatalyst in
  let regionArea := areaOf (filter (fun pt => px pt >=? threshold) data) in
  if JS.truthy totalArea then (regionArea / totalArea) * Fin 100 else Fin 0.

(** A curve point with finite coordinates. *)
Definition finPoint (ef : R * R) : point := mkPoint (Fin (fst ef)) (Fin (snd ef)).

(** Real-valued sums over a curve given as (energy, density) pairs. *)
Definition massR (pts : list (R * R)) : R := Sim.sumR (map snd pts).

Definition weightedR (pts : list (R * R)) : R :=
  Sim.sumR (map (fun ef => (fst ef * snd ef)%R) pts).

Definition massAboveR (t : R) (pts : list (R * R)) : R :=
  massR (filter (fun ef => if Rle_dec t (fst ef) then true else false) pts).

(** The density of [mbDistribution] in real numbers, for an effective
    temperature [Teff > 0] and an energy [E >= 0], and the curve it gives on
    the energy grid. *)
Definition densityR (Teff E : R) : R :=
  72 / 100 * (2 / sqrt PI) * Rpower (2 / Teff) (3 / 2) * sqrt E *
  exp (- E / Teff) * 50.

Definition curveR (Teff : R) : list (R * R) :=
  map (fun i => (INR i, densityR Teff (INR i))) (seq 0 (S energiesN)).

End Dist.

(** ** Curve colors ([getColorForTemperature], lines 105-110) *)

Module Color.

Import Strings.String.
Open Scope js_scope.

(** The two channels [red] and [blue]. *)
Definition colorChannels (T : num) : num * num :=
  let ratio := (T - Fin 100) / (Fin 500 - Fin 100) in
  let red := JS.round (ratio * Fin 255) in
  let blue := JS.round ((Fin 1 - ratio) * Fin 255) in
  (red, blue).

(** How the template literal prints a result of [Math.round]: an integer
    in decimal, or one of the special values. *)
Definition integerString (a : num) : string :=
  match a with
  | Fin r => DecimalString.NilZero.string_of_int (Z.to_int (Zfloor r))
  | Inf true => "Infinity"
  | Inf false => "-Infinity"
  | NaN => "NaN"
  end.

Definition getColorForTemperature (T : num) : string :=
  let '(red, blue) := colorChannels T in
  "rgb(" ++ integerString red ++ ",0," ++ integerString blue ++ ")".

End Color.

(** ** Ensembles used as concrete inputs *)

Module Scenario.

Import Sim.

(** The draws of the initialisation loop that put a particle at [(a, b)]
    heading in direction [pi] ([Math.random()] gives [a / 400],
    [b / 400] and [1 / 2]). *)
Definition westDraw (ab : R * R) : R * R * R := (fst ab / 400, snd ab / 400, 1 / 2)%R.

(** 48 particle positions on a grid with spacing 30, in the rows
    [y = 250, 280, 310, 340]. *)
Definition background : list (R * R) :=
  [(20, 250); (50, 250); (80, 250); (110, 250); (140, 250); (170, 250);
   (200, 250); (230, 250); (260, 250); (290, 250); (320, 250); (350, 250);
   (20, 280); (50, 280); (80, 280); (110, 280); (140, 280); (170, 280);
   (200, 280); (230, 280); (260, 280); (290, 280); (320, 280); (350, 280);
   (20, 310); (50, 310); (80, 310); (110, 310); (140, 310); (170, 310);
   (200, 310); (230, 310); (260, 310); (290, 310); (320, 310); (350, 310);
   (20, 340); (50, 340); (80, 340); (110, 340); (140, 340); (170, 340);
   (200, 340); (230, 340); (260, 340); (290, 340); (320, 340); (350, 340)]%R.

(** The ensemble the initialisation loop builds at temperature 4 from the
    positions [front ++ bg]: every particle gets velocity [(-1, 0)]. *)
Definition ensemble (front bg : list (R * R)) : list particle :=
  initParticles (Fin 4) (map westDraw (front ++ bg)).

End Scenario.


(** ** Finite arithmetic *)

Module JSFacts.

Open Scope js_scope.

Lemma Rltb_true a b : (a < b)%R -> Rltb a b = true.
Proof. intros H; unfold Rltb; destruct (Rlt_dec a b); [reflexivity | contradiction]. Qed.

Lemma Rltb_false a b : ~ (a < b)%R -> Rltb a b = false.
Proof. intros H; unfold Rltb; destruct (Rlt_dec a b); [contradiction | reflexivity]. Qed.

Lemma Reqb_true a b : a = b -> Reqb a b = true.
Proof. intros H; unfold Reqb; destruct (Req_dec_T a b); [reflexivity | contradiction]. Qed.

Lemma Reqb_false a b : a <> b -> Reqb a b = false.
Proof. intros H; unfold Reqb; destruct (Req_dec_T a b); [contradiction | reflexivity]. Qed.

Lemma add_fin a b : Fin a + Fin b = Fin (a + b).
Proof. reflexivity. Qed.

Lemma sub_fin a b : Fin a - Fin b = Fin (a - b).
Proof. reflexivity. Qed.

Lemma mul_fin a b : Fin a * Fin b = Fin (a * b).
Proof. reflexivity. Qed.

Lemma neg_fin a : JS.neg (Fin a) = Fin (- a).
Proof. reflexivity. Qed.

Lemma abs_fin a : JS.abs (Fin a) = Fin (Rabs a).
Proof. reflexivity. Qed.

Lemma div_fin a b : b <> 0%R -> Fin a / Fin b = Fin (a / b).
Proof. intros H; cbn; now rewrite (Reqb_false _ _ H). Qed.

Lemma div_zero_zero : Fin 0 / Fin 0 = NaN.
Proof. cbn; now rewrite (Reqb_true 0 0 eq_refl). Qed.

Lemma sqrt_fin a : (0 <= a)%R -> JS.sqrt (Fin a) = Fin (sqrt a).
Proof. intros H; cbn; rewrite Rltb_false; [reflexivity | lra]. Qed.

Lemma lt_fin a b : (Fin a <? Fin b) = Rltb a b.
Proof. reflexivity. Qed.

Lemma gt_fin a b : (Fin a >? Fin b) = Rltb b a.
Proof. reflexivity. Qed.

Lemma strict_eq_fin a b : (Fin a === Fin b) = Reqb a b.
Proof. reflexivity. Qed.

Lemma truthy_fin a : JS.truthy (Fin a) = negb (Reqb a 0).
Proof. reflexivity. Qed.

End JSFacts.

Import JSFacts.

Create Rewrite HintDb jsfin.
#[export] Hint Rewrite add_fin sub_fin mul_fin neg_fin abs_fin lt_fin gt_fin
  strict_eq_fin truthy_fin : jsfin.

Ltac js_norm := autorewrite with jsfin.

(** Decide the real comparisons of a concrete computation. *)
Ltac rdec :=
  repeat match goal with
  | |- context [Rltb ?a ?b] =>
      first [rewrite (Rltb_true a b) by lra | rewrite (Rltb_false a b) by lra]
  | |- context [Reqb ?a ?b] =>
      first [rewrite (Reqb_true a b) by lra | rewrite (Reqb_false a b) by lra]
  end.

(** Real-number facts used by the collision proofs. *)
Lemma sum_sq_nonneg (a b : R) : (0 <= a * a + b * b)%R.
Proof. nra. Qed.

Lemma unit_normal (dx dy : R) :
  (0 < sqrt (dx * dx + dy * dy))%R ->
  (dx / sqrt (dx * dx + dy * dy) * (dx / sqrt (dx * dx + dy * dy)) +
   dy / sqrt (dx * dx + dy * dy) * (dy / sqrt (dx * dx + dy * dy)) = 1)%R.
Proof.
  intros Hd.
  set (d := sqrt (dx * dx + dy * dy)) in *.
  assert (Hdd : (d * d = dx * dx + dy * dy)%R)
    by (unfold d; apply sqrt_sqrt, sum_sq_nonneg).
  transitivity ((dx * dx + dy * dy) / (d * d))%R; [field; lra |].
  rewrite <- Hdd. field. lra.
Qed.

(** ** Facts about [handleCollision] *)

Module CollisionFacts.

Import Sim.

Lemma handleCollision_coincident (x1 y1 vx1 vy1 r1 vx2 vy2 r2 : R) :
  handleCollision (fparticle x1 y1 vx1 vy1 r1) (fparticle x1 y1 vx2 vy2 r2) =
  (fparticle x1 y1 vx1 vy1 r1, fparticle x1 y1 vx2 vy2 r2).
Proof.
  unfold handleCollision, fparticle; cbv zeta; cbn [x y vx vy radius].
  js_norm.
  rewrite sqrt_fin by apply sum_sq_nonneg.
  js_norm.
  replace ((x1 - x1) * (x1 - x1) + (y1 - y1) * (y1 - y1))%R with 0%R by ring.
  rewrite sqrt_0, Reqb_true by reflexivity.
  reflexivity.
Qed.

Section Fin.

Variables x1 y1 vx1 vy1 r1 x2 y2 vx2 vy2 r2 : R.

Let dx := (x2 - x1)%R.
Let dy := (y2 - y1)%R.
Let d := sqrt (dx * dx + dy * dy).
Let nx := (dx / d)%R.
Let ny := (dy / d)%R.
Let rel := ((vx2 - vx1) * nx + (vy2 - vy1) * ny)%R.
Let j := (- (1 + (9 / 10)) * rel / 2)%R.

Lemma handleCollision_zero_dist :
  d = 0%R ->
  handleCollision (fparticle x1 y1 vx1 vy1 r1) (fparticle x2 y2 vx2 vy2 r2) =
  (fparticle x1 y1 vx1 vy1 r1, fparticle x2 y2 vx2 vy2 r2).
Proof.
  intros Hd.
  unfold handleCollision, fparticle; cbv zeta; cbn [x y vx vy radius].
  js_norm.
  rewrite sqrt_fin by apply sum_sq_nonneg.
  js_norm.
  fold dx dy d. rewrite Reqb_true by exact Hd.
  reflexivity.
Qed.

Lemma handleCollision_separating :
  (0 < d)%R -> (0 < rel)%R ->
  handleCollision (fparticle x1 y1 vx1 vy1 r1) (fparticle x2 y2 vx2 vy2 r2) =
  (fparticle x1 y1 vx1 vy1 r1, fparticle x2 y2 vx2 vy2 r2).
Proof.
  intros Hd Hrel.
  unfold handleCollision, fparticle; cbv zeta; cbn [x y vx vy radius].
  js_norm.
  rewrite sqrt_fin by apply sum_sq_nonneg.
  js_norm.
  fold dx dy d. rewrite Reqb_false by lra.
  rewrite !div_fin by lra.
  js_norm.
  fold nx ny rel. rewrite Rltb_true by exact Hrel.
  reflexivity.
Qed.

Lemma handleCollision_impulse :
  (0 < d)%R -> ~ (0 < rel)%R ->
  handleCollision (fparticle x1 y1 vx1 vy1 r1) (fparticle x2 y2 vx2 vy2 r2) =
  (fparticle x1 y1 (vx1 - j * nx) (vy1 - j * ny) r1,
   fparticle x2 y2 (vx2 + j * nx) (vy2 + j * ny) r2).
Proof.
  intros Hd Hrel.
  unfold handleCollision, fparticle, restitution; cbv zeta; cbn [x y vx vy radius].
  js_norm.
  rewrite sqrt_fin by apply sum_sq_nonneg.
  js_norm.
  fold dx dy d. rewrite Reqb_false by lra.
  rewrite !div_fin by lra.
  js_norm.
  fold nx ny rel. rewrite Rltb_false by exact Hrel.
  rewrite div_fin by lra.
  reflexivity.
Qed.

End Fin.

End CollisionFacts.

(** ** Claims about the kinetics engine *)

Import Sim CollisionFacts.

(** C3: for two particles with positive center distance that approach each
    other (negative relative normal velocity), [handleCollision] applies
    one impulse [j] along the unit normal, subtracted from the first
    particle's velocity and added to the second's, and the relative normal
    velocity afterwards is [-(9 / 10)] (minus the restitution) times the one
    before. *)
Theorem handleCollision_restitution (x1 y1 vx1 vy1 r1 x2 y2 vx2 vy2 r2 : R) :
  let dx := (x2 - x1)%R in
  let dy := (y2 - y1)%R in
  let d := sqrt (dx * dx + dy * dy) in
  let nx := (dx / d)%R in
  let ny := (dy / d)%R in
  let rel := ((vx2 - vx1) * nx + (vy2 - vy1) * ny)%R in
  (0 < d)%R -> (rel < 0)%R ->
  exists j vx1' vy1' vx2' vy2',
    handleCollision (fparticle x1 y1 vx1 vy1 r1) (fparticle x2 y2 vx2 vy2 r2) =
    (fparticle x1 y1 vx1' vy1' r1, fparticle x2 y2 vx2' vy2' r2) /\
    vx1' = (vx1 - j * nx)%R /\ vy1' = (vy1 - j * ny)%R /\
    vx2' = (vx2 + j * nx)%R /\ vy2' = (vy2 + j * ny)%R /\
    ((vx2' - vx1') * nx + (vy2' - vy1') * ny = - (9 / 10) * rel)%R.
Proof.
  intros dx dy d nx ny rel Hd Hrel.
  set (j := (- (1 + (9 / 10)) * rel / 2)%R).
  exists j, (vx1 - j * nx)%R, (vy1 - j * ny)%R, (vx2 + j * nx)%R, (vy2 + j * ny)%R.
  split; [apply handleCollision_impulse; [exact Hd | exact (Rlt_asym _ _ Hrel)] |].
  repeat split.
  assert (Hn : (nx * nx + ny * ny = 1)%R) by (apply unit_normal; exact Hd).
  unfold j, rel in *. clearbody nx ny.
  transitivity (((vx2 - vx1) * nx + (vy2 - vy1) * ny) +
    (1 + (9 / 10)) * (- ((vx2 - vx1) * nx + (vy2 - vy1) * ny)) * (nx * nx + ny * ny))%R;
    [field |].
  rewrite Hn; field.
Qed.

(** C10: for any two particles with finite fields, [handleCollision] keeps
    positions and radii and conserves the pair's total momentum: the sum of
    the two velocities is the same after the call as before, on each axis. *)
Theorem handleCollision_momentum (x1 y1 vx1 vy1 r1 x2 y2 vx2 vy2 r2 : R) :
  exists vx1' vy1' vx2' vy2',
    handleCollision (fparticle x1 y1 vx1 vy1 r1) (fparticle x2 y2 vx2 vy2 r2) =
    (fparticle x1 y1 vx1' vy1' r1, fparticle x2 y2 vx2' vy2' r2) /\
    (vx1' + vx2' = vx1 + vx2)%R /\ (vy1' + vy2' = vy1 + vy2)%R.
Proof.
  set (d := sqrt ((x2 - x1) * (x2 - x1) + (y2 - y1) * (y2 - y1))).
  set (rel := ((vx2 - vx1) * ((x2 - x1) / d) + (vy2 - vy1) * ((y2 - y1) / d))%R).
  assert (Hd0 : (0 <= d)%R) by apply sqrt_pos.
  destruct (Req_dec_T d 0) as [Hd | Hd].
  - exists vx1, vy1, vx2, vy2.
    split; [apply handleCollision_zero_dist; exact Hd | split; reflexivity].
  - destruct (Rlt_dec 0 rel) as [Hrel | Hrel].
    + exists vx1, vy1, vx2, vy2.
      split; [apply handleCollision_separating; [fold d; lra | exact Hrel]
             | split; reflexivity].
    + set (j := (- (1 + (9 / 10)) * rel / 2)%R).
      exists (vx1 - j * ((x2 - x1) / d))%R, (vy1 - j * ((y2 - y1) / d))%R,
             (vx2 + j * ((x2 - x1) / d))%R, (vy2 + j * ((y2 - y1) / d))%R.
      split; [apply handleCollision_impulse; [fold d; lra | exact Hrel] |].
      split; ring.
Qed.

(** Witness of C3: two particles 3 apart on the x axis moving towards each
    other with speed 1. *)
Lemma handleCollision_restitution_witness :
  (0 < sqrt ((3 - 0) * (3 - 0) + (0 - 0) * (0 - 0)))%R /\
  ((-1 - 1) * ((3 - 0) / sqrt ((3 - 0) * (3 - 0) + (0 - 0) * (0 - 0))) +
   (0 - 0) * ((0 - 0) / sqrt ((3 - 0) * (3 - 0) + (0 - 0) * (0 - 0))) < 0)%R /\
  exists j vx1' vy1' vx2' vy2',
    handleCollision (fparticle 0 0 1 0 5) (fparticle 3 0 (-1) 0 5) =
    (fparticle 0 0 vx1' vy1' 5, fparticle 3 0 vx2' vy2' 5) /\
    vx1' = (1 - j * ((3 - 0) / sqrt ((3 - 0) * (3 - 0) + (0 - 0) * (0 - 0))))%R /\
    vy1' = (0 - j * ((0 - 0) / sqrt ((3 - 0) * (3 - 0) + (0 - 0) * (0 - 0))))%R /\
    vx2' = (-1 + j * ((3 - 0) / sqrt ((3 - 0) * (3 - 0) + (0 - 0) * (0 - 0))))%R /\
    vy2' = (0 + j * ((0 - 0) / sqrt ((3 - 0) * (3 - 0) + (0 - 0) * (0 - 0))))%R /\
    ((vx2' - vx1') * ((3 - 0) / sqrt ((3 - 0) * (3 - 0) + (0 - 0) * (0 - 0))) +
     (vy2' - vy1') * ((0 - 0) / sqrt ((3 - 0) * (3 - 0) + (0 - 0) * (0 - 0))) =
     - (9 / 10) * ((-1 - 1) * ((3 - 0) / sqrt ((3 - 0) * (3 - 0) + (0 - 0) * (0 - 0))) +
              (0 - 0) * ((0 - 0) / sqrt ((3 - 0) * (3 - 0) + (0 - 0) * (0 - 0)))))%R.
Proof.
  assert (H3 : sqrt ((3 - 0) * (3 - 0) + (0 - 0) * (0 - 0)) = 3%R).
  { replace ((3 - 0) * (3 - 0) + (0 - 0) * (0 - 0))%R with (3 * 3)%R by ring.
    apply sqrt_square; lra. }
  assert (Hd : (0 < sqrt ((3 - 0) * (3 - 0) + (0 - 0) * (0 - 0)))%R)
    by (rewrite H3; lra).
  assert (Hr : ((-1 - 1) * ((3 - 0) / sqrt ((3 - 0) * (3 - 0) + (0 - 0) * (0 - 0))) +
    (0 - 0) * ((0 - 0) / sqrt ((3 - 0) * (3 - 0) + (0 - 0) * (0 - 0))) < 0)%R)
    by (rewrite H3; lra).
  split; [exact Hd | split; [exact Hr |]].
  exact (handleCollision_restitution 0 0 1 0 5 3 0 (-1) 0 5 Hd Hr).
Defined.

(** ** Facts about the thermostat *)

Module ThermostatFacts.

Import Sim.

Lemma rspeed_nonneg q : (0 <= rspeed q)%R.
Proof. apply sqrt_pos. Qed.

Lemma speed_embed q : speed (embed q) = Fin (rspeed q).
Proof.
  unfold speed, embed, fparticle, rspeed; cbn [vx vy].
  js_norm. apply sqrt_fin, sum_sq_nonneg.
Qed.

Lemma sumSpeed_embed_acc qs a :
  fold_left (fun s p => JS.add s (speed p)) (map embed qs) (Fin a) =
  Fin (a + sumR (map rspeed qs)).
Proof.
  revert a; induction qs as [| q qs IH]; intros a; cbn [map fold_left].
  - unfold sumR; cbn. f_equal; ring.
  - rewrite speed_embed, add_fin, IH. f_equal. unfold sumR; cbn. ring.
Qed.

Lemma sumSpeed_embed qs : sumSpeed (map embed qs) = Fin (sumR (map rspeed qs)).
Proof.
  unfold sumSpeed. rewrite sumSpeed_embed_acc. f_equal; ring.
Qed.

Lemma avgSpeed_embed qs :
  qs <> [] -> avgSpeed (map embed qs) = Fin (meanSpeedR qs).
Proof.
  intros Hne.
  unfold avgSpeed, meanSpeedR. rewrite sumSpeed_embed, length_map.
  apply div_fin.
  destruct qs as [| q qs]; [contradiction |].
  cbn [length]. apply not_O_INR. discriminate.
Qed.

Lemma sumR_nonneg qs : (0 <= sumR (map rspeed qs))%R.
Proof.
  induction qs as [| q qs IH]; unfold sumR in *; cbn; [lra |].
  pose proof (rspeed_nonneg q); lra.
Qed.

Lemma sumR_pos qs :
  (exists q, In q qs /\ rspeed q <> 0%R) -> (0 < sumR (map rspeed qs))%R.
Proof.
  intros (q & Hin & Hq).
  induction qs as [| q' qs IH]; [destruct Hin |].
  unfold sumR in *; cbn.
  pose proof (sumR_nonneg qs) as H0; unfold sumR in H0.
  destruct Hin as [-> | Hin].
  - pose proof (rspeed_nonneg q); lra.
  - pose proof (rspeed_nonneg q'); specialize (IH Hin); lra.
Qed.

Lemma rescale_embed s q : rescale (Fin s) (embed q) = embed (rscale s q).
Proof. reflexivity. Qed.

Lemma rspeed_rscale s q : (0 <= s)%R -> rspeed (rscale s q) = (s * rspeed q)%R.
Proof.
  intros Hs. unfold rspeed, rscale; cbn [rvx rvy].
  replace (rvx q * s * (rvx q * s) + rvy q * s * (rvy q * s))%R
    with ((s * s) * (rvx q * rvx q + rvy q * rvy q))%R by ring.
  rewrite sqrt_mult_alt by nra. rewrite sqrt_square by exact Hs. reflexivity.
Qed.

Lemma sumR_rscale s qs :
  (0 <= s)%R -> sumR (map rspeed (map (rscale s) qs)) = (s * sumR (map rspeed qs))%R.
Proof.
  intros Hs; induction qs as [| q qs IH]; unfold sumR in *; cbn; [ring |].
  rewrite IH, rspeed_rscale by exact Hs. ring.
Qed.

End ThermostatFacts.

Import ThermostatFacts.

(** The desired speed [baseSpeedFactor * Math.sqrt(T)] at a temperature
    [T >= 0]. *)
Lemma desired_fin (T : R) :
  (0 <= T)%R -> JS.mul baseSpeedFactor (JS.sqrt (Fin T)) = Fin (1 / 2 * sqrt T).
Proof. intros HT. unfold baseSpeedFactor. rewrite sqrt_fin by exact HT. reflexivity. Qed.

(** C2: at a temperature [T >= 0], for an ensemble of finite particles in
    which at least one particle has nonzero speed, the thermostat pass
    yields an ensemble of finite particles whose mean speed (the
    arithmetic mean of the speed magnitudes) is [0.5 * sqrt T]. *)
Theorem thermostat_mean_speed (T : R) (qs : list rparticle) :
  (0 <= T)%R ->
  (exists q, In q qs /\ rspeed q <> 0%R) ->
  exists qs',
    thermostat (JS.mul baseSpeedFactor (JS.sqrt (Fin T))) (map embed qs) =
    map embed qs' /\
    meanSpeedR qs' = (1 / 2 * sqrt T)%R.
Proof.
  intros HT Hex.
  assert (Hne : qs <> []) by (intros ->; destruct Hex as (q & [] & _)).
  assert (Hpos : (0 < sumR (map rspeed qs))%R) by (apply sumR_pos; exact Hex).
  assert (Hn : (0 < INR (length qs))%R).
  { destruct qs as [| q qs]; [contradiction |]. apply lt_0_INR. cbn; lia. }
  assert (Hm : (0 < meanSpeedR qs)%R)
    by (unfold meanSpeedR; apply Rdiv_lt_0_compat; assumption).
  set (s := (1 / 2 * sqrt T / meanSpeedR qs)%R).
  assert (Hs : (0 <= s)%R).
  { unfold s. apply Rmult_le_pos; [| left; apply Rinv_0_lt_compat; exact Hm].
    pose proof (sqrt_pos T); lra. }
  exists (map (rscale s) qs).
  split.
  - unfold thermostat. rewrite desired_fin by exact HT.
    rewrite avgSpeed_embed by exact Hne.
    unfold orOne. rewrite truthy_fin, Reqb_false by lra. cbn [negb].
    rewrite div_fin by lra. fold s.
    rewrite !map_map. apply map_ext. intros q. apply rescale_embed.
  - unfold meanSpeedR. rewrite sumR_rscale by exact Hs.
    rewrite !length_map.
    unfold s, meanSpeedR. field. split; lra.
Qed.

(** Witness of C2: one particle of velocity (3, 4) at temperature 4. *)
Lemma thermostat_mean_speed_witness :
  (0 <= 4)%R /\
  (exists q, In q [mkR 10 10 3 4 5] /\ rspeed q <> 0%R) /\
  exists qs',
    thermostat (JS.mul baseSpeedFactor (JS.sqrt (Fin 4))) (map embed [mkR 10 10 3 4 5]) =
    map embed qs' /\
    meanSpeedR qs' = (1 / 2 * sqrt 4)%R.
Proof.
  assert (H4 : (0 <= 4)%R) by lra.
  assert (Hex : exists q, In q [mkR 10 10 3 4 5] /\ rspeed q <> 0%R).
  { exists (mkR 10 10 3 4 5). split; [left; reflexivity |].
    unfold rspeed; cbn [rvx rvy].
    replace (3 * 3 + 4 * 4)%R with (5 * 5)%R by ring.
    rewrite sqrt_square by lra. lra. }
  split; [exact H4 | split; [exact Hex |]].
  exact (thermostat_mean_speed 4 [mkR 10 10 3 4 5] H4 Hex).
Defined.

(** C9: at a temperature [T >= 0], for a nonempty ensemble of finite
    particles that are all at rest, the mean speed is [0], the divisor
    [avgSpeed || 1] is [1] (no division by zero), and the thermostat pass
    leaves every particle unchanged, hence at rest. *)
Theorem thermostat_at_rest (T : R) (qs : list rparticle) :
  (0 <= T)%R -> qs <> [] ->
  Forall (fun q => rvx q = 0%R /\ rvy q = 0%R) qs ->
  avgSpeed (map embed qs) = Fin 0 /\
  orOne (avgSpeed (map embed qs)) = Fin 1 /\
  thermostat (JS.mul baseSpeedFactor (JS.sqrt (Fin T))) (map embed qs) =
  map embed qs.
Proof.
  intros HT Hne Hrest.
  assert (Hsum : sumR (map rspeed qs) = 0%R).
  { clear Hne. induction Hrest as [| q qs [Hx Hy] _ IH]; [reflexivity |].
    unfold sumR in *; cbn [map fold_right]. unfold rspeed at 1. rewrite Hx, Hy.
    replace (0 * 0 + 0 * 0)%R with 0%R by ring. rewrite sqrt_0, IH. ring. }
  assert (Havg : avgSpeed (map embed qs) = Fin 0).
  { rewrite avgSpeed_embed by exact Hne. unfold meanSpeedR. rewrite Hsum.
    f_equal. unfold Rdiv. ring. }
  assert (Hone : orOne (avgSpeed (map embed qs)) = Fin 1).
  { rewrite Havg. unfold orOne. rewrite truthy_fin, Reqb_true by reflexivity.
    reflexivity. }
  split; [exact Havg | split; [exact Hone |]].
  unfold thermostat. rewrite Hone, desired_fin by exact HT.
  rewrite div_fin by lra.
  rewrite map_map. apply map_ext_in. intros q Hin.
  rewrite Forall_forall in Hrest. destruct (Hrest q Hin) as [Hx Hy].
  rewrite rescale_embed. unfold embed, rscale, fparticle; cbn.
  rewrite Hx, Hy. f_equal; f_equal; ring.
Qed.

(** Witness of C9: two particles at rest at temperature 300. *)
Lemma thermostat_at_rest_witness :
  (0 <= 300)%R /\ [mkR 10 10 0 0 5; mkR 50 50 0 0 5] <> [] /\
  Forall (fun q => rvx q = 0%R /\ rvy q = 0%R) [mkR 10 10 0 0 5; mkR 50 50 0 0 5] /\
  avgSpeed (map embed [mkR 10 10 0 0 5; mkR 50 50 0 0 5]) = Fin 0 /\
  orOne (avgSpeed (map embed [mkR 10 10 0 0 5; mkR 50 50 0 0 5])) = Fin 1 /\
  thermostat (JS.mul baseSpeedFactor (JS.sqrt (Fin 300)))
    (map embed [mkR 10 10 0 0 5; mkR 50 50 0 0 5]) =
  map embed [mkR 10 10 0 0 5; mkR 50 50 0 0 5].
Proof.
  assert (HT : (0 <= 300)%R) by lra.
  assert (Hne : [mkR 10 10 0 0 5; mkR 50 50 0 0 5] <> []) by discriminate.
  assert (Hr : Forall (fun q => rvx q = 0%R /\ rvy q = 0%R)
                 [mkR 10 10 0 0 5; mkR 50 50 0 0 5])
    by (repeat constructor).
  split; [exact HT | split; [exact Hne | split; [exact Hr |]]].
  exact (thermostat_at_rest 300 _ HT Hne Hr).
Defined.

(** ** Facts about the pair loop *)

Module PairFacts.

Import Sim CollisionFacts.

(** [handleCollision] on finite particles only changes the velocities,
    to finite values. *)
Lemma handleCollision_shape (x1 y1 vx1 vy1 r1 x2 y2 vx2 vy2 r2 : R) :
  exists vx1' vy1' vx2' vy2',
    handleCollision (fparticle x1 y1 vx1 vy1 r1) (fparticle x2 y2 vx2 vy2 r2) =
    (fparticle x1 y1 vx1' vy1' r1, fparticle x2 y2 vx2' vy2' r2).
Proof.
  set (d := sqrt ((x2 - x1) * (x2 - x1) + (y2 - y1) * (y2 - y1))).
  set (rel := ((vx2 - vx1) * ((x2 - x1) / d) + (vy2 - vy1) * ((y2 - y1) / d))%R).
  assert (Hd0 : (0 <= d)%R) by apply sqrt_pos.
  destruct (Req_dec_T d 0) as [Hd | Hd].
  - do 4 eexists; apply handleCollision_zero_dist; exact Hd.
  - destruct (Rlt_dec 0 rel) as [Hrel | Hrel].
    + do 4 eexists; apply handleCollision_separating; [fold d; lra | exact Hrel].
    + do 4 eexists; apply handleCollision_impulse; [fold d; lra | exact Hrel].
Qed.

Section Pair.

Variables x1 y1 vx1 vy1 r1 x2 y2 vx2 vy2 r2 : R.

Let dx := (x2 - x1)%R.
Let dy := (y2 - y1)%R.
Let d := sqrt (dx * dx + dy * dy).
Let sx := (dx / d * ((r1 + r2 - d) / 2))%R.
Let sy := (dy / d * ((r1 + r2 - d) / 2))%R.

(** Pairs that do not overlap are left as they are. *)
Lemma collidePair_apart :
  ~ (d < r1 + r2)%R ->
  collidePair (fparticle x1 y1 vx1 vy1 r1) (fparticle x2 y2 vx2 vy2 r2) =
  (fparticle x1 y1 vx1 vy1 r1, fparticle x2 y2 vx2 vy2 r2).
Proof.
  intros H.
  unfold collidePair; cbv zeta; unfold fparticle; cbn [x y radius].
  js_norm.
  rewrite sqrt_fin by apply sum_sq_nonneg.
  js_norm. fold dx dy d. rewrite Rltb_false by exact H.
  reflexivity.
Qed.

(** An overlapping pair with distinct centers: the impulse of
    [handleCollision], then each particle moved by half the overlap along
    the center line. *)
Lemma collidePair_overlap vx1' vy1' vx2' vy2' :
  (0 < d)%R -> (d < r1 + r2)%R ->
  handleCollision (fparticle x1 y1 vx1 vy1 r1) (fparticle x2 y2 vx2 vy2 r2) =
  (fparticle x1 y1 vx1' vy1' r1, fparticle x2 y2 vx2' vy2' r2) ->
  collidePair (fparticle x1 y1 vx1 vy1 r1) (fparticle x2 y2 vx2 vy2 r2) =
  (fparticle (x1 - sx) (y1 - sy) vx1' vy1' r1,
   fparticle (x2 + sx) (y2 + sy) vx2' vy2' r2).
Proof.
  intros Hd Hlt Hhc.
  unfold collidePair; cbv zeta.
  unfold fparticle in *; cbn [x y radius].
  js_norm.
  rewrite sqrt_fin by apply sum_sq_nonneg.
  js_norm. fold dx dy d. rewrite Rltb_true by exact Hlt.
  rewrite Hhc. cbn [x y vx vy radius].
  js_norm.
  rewrite !div_fin by lra.
  js_norm.
  reflexivity.
Qed.

(** An overlapping pair with equal centers: [dx / dist] is [0 / 0]. *)
Lemma collidePair_coincident :
  x1 = x2 -> y1 = y2 -> (0 < r1 + r2)%R ->
  collidePair (fparticle x1 y1 vx1 vy1 r1) (fparticle x2 y2 vx2 vy2 r2) =
  (mkParticle NaN NaN (Fin vx1) (Fin vy1) (Fin r1),
   mkParticle NaN NaN (Fin vx2) (Fin vy2) (Fin r2)).
Proof.
  intros -> -> Hr.
  unfold collidePair; cbv zeta.
  rewrite handleCollision_coincident.
  unfold fparticle; cbn [x y vx vy radius].
  js_norm.
  replace ((x2 - x2) * (x2 - x2) + (y2 - y2) * (y2 - y2))%R with 0%R by ring.
  rewrite sqrt_fin by lra. rewrite sqrt_0.
  js_norm. rewrite Rltb_true by lra.
  replace (x2 - x2)%R with 0%R by ring.
  replace (y2 - y2)%R with 0%R by ring.
  rewrite div_zero_zero.
  reflexivity.
Qed.

End Pair.

(** [handleCollision] of two particles with the same velocity and distinct
    centers: the relative velocity, hence the impulse, is zero. *)
Lemma handleCollision_comoving (x1 y1 r1 x2 y2 r2 u w : R) :
  (0 < sqrt ((x2 - x1) * (x2 - x1) + (y2 - y1) * (y2 - y1)))%R ->
  handleCollision (fparticle x1 y1 u w r1) (fparticle x2 y2 u w r2) =
  (fparticle x1 y1 u w r1, fparticle x2 y2 u w r2).
Proof.
  intros Hd.
  rewrite handleCollision_impulse; [| exact Hd |].
  - unfold fparticle; repeat f_equal; unfold Rdiv; ring.
  - replace ((u - u) * ((x2 - x1) / sqrt ((x2 - x1) * (x2 - x1) + (y2 - y1) * (y2 - y1))) +
      (w - w) * ((y2 - y1) / sqrt ((x2 - x1) * (x2 - x1) + (y2 - y1) * (y2 - y1))))%R
      with 0%R by ring.
    lra.
Qed.

Lemma sqrt_horizontal (a b y : R) :
  sqrt ((b - a) * (b - a) + (y - y) * (y - y)) = Rabs (b - a).
Proof.
  replace ((b - a) * (b - a) + (y - y) * (y - y))%R with (Rsqr (b - a))
    by (unfold Rsqr; ring).
  apply sqrt_Rsqr_abs.
Qed.

(** Two particles with the same velocity on a horizontal line,
    overlapping: each moves away from the other by half the overlap. *)
Lemma collidePair_horizontal (a b y u w r1 r2 a' b' : R) :
  (0 < Rabs (b - a))%R -> (Rabs (b - a) < r1 + r2)%R ->
  a' = (a - (b - a) / Rabs (b - a) * ((r1 + r2 - Rabs (b - a)) / 2))%R ->
  b' = (b + (b - a) / Rabs (b - a) * ((r1 + r2 - Rabs (b - a)) / 2))%R ->
  collidePair (fparticle a y u w r1) (fparticle b y u w r2) =
  (fparticle a' y u w r1, fparticle b' y u w r2).
Proof.
  intros H0 H1 -> ->.
  rewrite (collidePair_overlap a y u w r1 b y u w r2 u w u w);
    rewrite ?sqrt_horizontal; try assumption.
  - unfold fparticle; repeat f_equal; field; lra.
  - apply handleCollision_comoving. rewrite sqrt_horizontal. exact H0.
Qed.

End PairFacts.

(** ** Claims about the pair loop *)

Import PairFacts.

(** C5 (amended): the pair loop separates one overlapping pair with
    distinct centers exactly: right after [collidePair] the two centers are
    [r1 + r2] apart. (Pairs processed later in the same pass can move the
    two particles again.) *)
Theorem collidePair_touching (x1 y1 vx1 vy1 r1 x2 y2 vx2 vy2 r2 : R) :
  let d := sqrt ((x2 - x1) * (x2 - x1) + (y2 - y1) * (y2 - y1)) in
  (0 < d)%R -> (d < r1 + r2)%R ->
  exists x1' y1' vx1' vy1' x2' y2' vx2' vy2',
    collidePair (fparticle x1 y1 vx1 vy1 r1) (fparticle x2 y2 vx2 vy2 r2) =
    (fparticle x1' y1' vx1' vy1' r1, fparticle x2' y2' vx2' vy2' r2) /\
    sqrt ((x2' - x1') * (x2' - x1') + (y2' - y1') * (y2' - y1')) = (r1 + r2)%R.
Proof.
  intros d Hd Hlt.
  destruct (handleCollision_shape x1 y1 vx1 vy1 r1 x2 y2 vx2 vy2 r2)
    as (vx1' & vy1' & vx2' & vy2' & Hhc).
  set (sx := ((x2 - x1) / d * ((r1 + r2 - d) / 2))%R).
  set (sy := ((y2 - y1) / d * ((r1 + r2 - d) / 2))%R).
  exists (x1 - sx)%R, (y1 - sy)%R, vx1', vy1', (x2 + sx)%R, (y2 + sy)%R, vx2', vy2'.
  split; [apply collidePair_overlap; assumption |].
  assert (Hdd : (d * d = (x2 - x1) * (x2 - x1) + (y2 - y1) * (y2 - y1))%R)
    by (unfold d; apply sqrt_sqrt, sum_sq_nonneg).
  replace ((x2 + sx - (x1 - sx)) * (x2 + sx - (x1 - sx)) +
           (y2 + sy - (y1 - sy)) * (y2 + sy - (y1 - sy)))%R
    with ((r1 + r2) * (r1 + r2))%R.
  - apply sqrt_square; lra.
  - unfold sx, sy.
    transitivity (((x2 - x1) * (x2 - x1) + (y2 - y1) * (y2 - y1)) *
                  ((r1 + r2) / d) * ((r1 + r2) / d))%R.
    + rewrite <- Hdd. field. lra.
    + field. lra.
Qed.

(** Witness of C5: two particles 6 apart on a horizontal line. *)
Lemma collidePair_touching_witness :
  (0 < sqrt ((6 - 0) * (6 - 0) + (0 - 0) * (0 - 0)))%R /\
  (sqrt ((6 - 0) * (6 - 0) + (0 - 0) * (0 - 0)) < 5 + 5)%R /\
  exists x1' y1' vx1' vy1' x2' y2' vx2' vy2',
    collidePair (fparticle 0 0 1 0 5) (fparticle 6 0 (-1) 0 5) =
    (fparticle x1' y1' vx1' vy1' 5, fparticle x2' y2' vx2' vy2' 5) /\
    sqrt ((x2' - x1') * (x2' - x1') + (y2' - y1') * (y2' - y1')) = (5 + 5)%R.
Proof.
  assert (H6 : sqrt ((6 - 0) * (6 - 0) + (0 - 0) * (0 - 0)) = 6%R).
  { rewrite sqrt_horizontal, Rabs_pos_eq; lra. }
  assert (Hd : (0 < sqrt ((6 - 0) * (6 - 0) + (0 - 0) * (0 - 0)))%R) by (rewrite H6; lra).
  assert (Hl : (sqrt ((6 - 0) * (6 - 0) + (0 - 0) * (0 - 0)) < 5 + 5)%R) by (rewrite H6; lra).
  split; [exact Hd | split; [exact Hl |]].
  exact (collidePair_touching 0 0 1 0 5 6 0 (-1) 0 5 Hd Hl).
Defined.

Ltac abs_solve :=
  first [rewrite Rabs_pos_eq by lra | rewrite Rabs_left by lra | idtac];
  first [lra | field; lra | field].

(** ** Wall containment *)

Module WallFacts.

Import Sim.

Lemma move_fin x0 y0 vx0 vy0 r0 :
  move (fparticle x0 y0 vx0 vy0 r0) = fparticle (x0 + vx0) (y0 + vy0) vx0 vy0 r0.
Proof. reflexivity. Qed.

Lemma rescale_x s p : x (rescale s p) = x p.
Proof. reflexivity. Qed.

Lemma wallX_in x0 y0 vx0 vy0 :
  exists x' vx', wallX (fparticle x0 y0 vx0 vy0 5) = fparticle x' y0 vx' vy0 5 /\
    (5 <= x' <= 395)%R.
Proof.
  unfold wallX, fparticle, width; cbn [x y vx vy radius].
  js_norm. unfold Rltb.
  destruct (Rlt_dec (x0 - 5) 0) as [H1 | H1].
  - exists 5%R, (Rabs vx0). split; [reflexivity | lra].
  - destruct (Rlt_dec 400 (x0 + 5)) as [H2 | H2].
    + exists (400 - 5)%R, (- Rabs vx0)%R. split; [reflexivity | lra].
    + exists x0, vx0. split; [reflexivity | lra].
Qed.

Lemma wallY_in x0 y0 vx0 vy0 :
  exists y' vy', wallY (fparticle x0 y0 vx0 vy0 5) = fparticle x0 y' vx0 vy' 5 /\
    (5 <= y' <= 395)%R.
Proof.
  unfold wallY, fparticle, height; cbn [x y vx vy radius].
  js_norm. unfold Rltb.
  destruct (Rlt_dec (y0 - 5) 0) as [H1 | H1].
  - exists 5%R, (Rabs vy0). split; [reflexivity | lra].
  - destruct (Rlt_dec 400 (y0 + 5)) as [H2 | H2].
    + exists (400 - 5)%R, (- Rabs vy0)%R. split; [reflexivity | lra].
    + exists y0, vy0. split; [reflexivity | lra].
Qed.

Lemma wall_in x0 y0 vx0 vy0 : inBox (wall (fparticle x0 y0 vx0 vy0 5)).
Proof.
  unfold wall.
  destruct (wallX_in x0 y0 vx0 vy0) as (x' & vx' & -> & Hx).
  destruct (wallY_in x' y0 vx' vy0) as (y' & vy' & -> & Hy).
  exists x', y'. repeat split; lra.
Qed.

End WallFacts.

Import WallFacts.

(** C1 (amended): within a step, right after the wall-collision pass,
    every particle of an ensemble of finite particles of radius 5 lies in
    [[5, 395] x [5, 395]]. *)
Theorem wall_pass_in_box (qs : list rparticle) :
  Forall (fun q => rradius q = 5%R) qs ->
  Forall inBox (map wall (map move (map embed qs))).
Proof.
  intros Hr. rewrite !map_map.
  apply Forall_map. eapply Forall_impl; [| exact Hr].
  intros q Hq. unfold embed. rewrite move_fin, Hq. apply wall_in.
Qed.

(** Witness of C1 (amended): two particles of radius 5, one crossing the
    left wall. *)
Lemma wall_pass_in_box_witness :
  Forall (fun q => rradius q = 5%R) [mkR 3 200 (-1) 0 5; mkR 7 200 (-1) 0 5] /\
  Forall inBox (map wall (map move (map embed [mkR 3 200 (-1) 0 5; mkR 7 200 (-1) 0 5]))).
Proof.
  assert (H : Forall (fun q => rradius q = 5%R) [mkR 3 200 (-1) 0 5; mkR 7 200 (-1) 0 5])
    by (repeat constructor).
  split; [exact H | exact (wall_pass_in_box _ H)].
Defined.

(** ** Full ensembles: particles far apart are left alone by the pair loop *)

Module FrameFacts.

Import Sim Scenario.

(** The initialisation loop at temperature 4 with the draws
    [westDraw (a, b)]: speed [0.5 * sqrt 4 = 1] in direction [pi]. *)
Lemma init_west a b :
  initParticle (Fin 4) (Fin (a / 400)) (Fin (b / 400)) (Fin (1 / 2)) =
  fparticle a b (-1) 0 5.
Proof.
  unfold initParticle, width, height, baseSpeedFactor, fparticle.
  rewrite sqrt_fin by lra. js_norm. cbn [JS.cos JS.sin]. js_norm.
  replace (1 / 2 * 2 * PI)%R with PI by field.
  rewrite cos_PI, sin_PI.
  replace (sqrt 4) with 2%R
    by (replace 4%R with (Rsqr 2) by (unfold Rsqr; ring); rewrite sqrt_Rsqr; lra).
  repeat f_equal; field.
Qed.

Lemma ensemble_fin front bg :
  ensemble front bg =
  map (fun ab => fparticle (fst ab) (snd ab) (-1) 0 5) (front ++ bg).
Proof.
  unfold ensemble, initParticles. rewrite map_map.
  apply map_ext. intros [a b]. apply init_west.
Qed.

(** A particle heading west, away from the walls: the position update and
    the wall pass move it by one unit along x. *)
Lemma wall_move_inner a b :
  (6 <= a <= 396)%R -> (5 <= b <= 395)%R ->
  wall (move (fparticle a b (-1) 0 5)) = fparticle (a - 1) b (-1) 0 5.
Proof.
  intros Ha Hb. rewrite move_fin.
  unfold wall, wallX, wallY, fparticle, width, height; cbn [x y vx vy radius].
  do 2 (js_norm; rdec; cbn [x y vx vy radius]).
  repeat f_equal; ring.
Qed.

(** A particle heading west that crosses the left wall is clamped to
    [x = 5] with its x velocity turned to [+1]. *)
Lemma wall_move_left a b :
  (a - 1 - 5 < 0)%R -> (5 <= b <= 395)%R ->
  wall (move (fparticle a b (-1) 0 5)) = fparticle 5 b 1 0 5.
Proof.
  intros Ha Hb. rewrite move_fin.
  unfold wall, wallX, wallY, fparticle, width, height; cbn [x y vx vy radius].
  do 2 (js_norm; rdec; cbn [x y vx vy radius]).
  rewrite Rabs_left by lra.
  repeat f_equal; ring.
Qed.

Lemma background_walls (bg : list (R * R)) :
  Forall (fun ab => 6 <= fst ab <= 396 /\ 5 <= snd ab <= 395)%R bg ->
  map wall (map move (map (fun ab => fparticle (fst ab) (snd ab) (-1) 0 5) bg)) =
  map (fun ab => fparticle (fst ab - 1) (snd ab) (-1) 0 5) bg.
Proof.
  induction 1 as [| [a b] bg [Ha Hb] _ IH]; [reflexivity |].
  cbn [map fst snd] in *. rewrite wall_move_inner, IH by assumption.
  reflexivity.
Qed.

Lemma background_range :
  Forall (fun ab => 6 <= fst ab <= 396 /\ 5 <= snd ab <= 395)%R background.
Proof.
  unfold background.
  repeat (apply Forall_cons; [cbn [fst snd]; lra |]). apply Forall_nil.
Qed.

(** The loop over the later particles, and the whole pair loop, leave
    particles that are pairwise apart as they are. *)
Lemma collideWith_apart p rest :
  Forall (apart p) rest -> collideWith p rest = (p, rest).
Proof.
  induction 1 as [| q rest Hq _ IH]; [reflexivity |].
  cbn [collideWith]. unfold apart in Hq. rewrite Hq, IH. reflexivity.
Qed.

Lemma collideRounds_apart n ps :
  ForallOrdPairs apart ps -> collideRounds n ps = ps.
Proof.
  intros H. revert n.
  induction H as [| p ps Hp _ IH]; intros [| n]; try reflexivity.
  cbn [collideRounds]. rewrite collideWith_apart by exact Hp.
  rewrite IH. reflexivity.
Qed.

(** The pair loop on two particles followed by an ensemble apart from
    them and from each other. *)
Lemma collideRounds_front2 n p1 p2 p1' p2' bg :
  collidePair p1 p2 = (p1', p2') ->
  Forall (apart p1') bg -> Forall (apart p2') bg -> ForallOrdPairs apart bg ->
  collideRounds (S (S n)) (p1 :: p2 :: bg) = p1' :: p2' :: bg.
Proof.
  intros H12 H1 H2 Hbg.
  cbn [collideRounds collideWith]. rewrite H12.
  rewrite collideWith_apart by exact H1.
  cbn [collideRounds]. rewrite collideWith_apart by exact H2.
  rewrite collideRounds_apart by exact Hbg. reflexivity.
Qed.

(** The same with three particles in front: the pairs (0,1), (0,2), then
    (1,2). *)
Lemma collideRounds_front3 n p1 p2 p3 p1' p2' p1'' p3' p2'' p3'' bg :
  collidePair p1 p2 = (p1', p2') ->
  collidePair p1' p3 = (p1'', p3') -> Forall (apart p1'') bg ->
  collidePair p2' p3' = (p2'', p3'') ->
  Forall (apart p2'') bg -> Forall (apart p3'') bg -> ForallOrdPairs apart bg ->
  collideRounds (S (S (S n))) (p1 :: p2 :: p3 :: bg) = p1'' :: p2'' :: p3'' :: bg.
Proof.
  intros H12 H13 H1 H23 H2 H3 Hbg.
  cbn [collideRounds collideWith]. rewrite H12. rewrite H13.
  rewrite collideWith_apart by exact H1.
  cbn [collideRounds collideWith]. rewrite H23.
  rewrite collideWith_apart by exact H2.
  cbn [collideRounds]. rewrite collideWith_apart by exact H3.
  rewrite collideRounds_apart by exact Hbg. reflexivity.
Qed.

(** Particles of radius 5 at least 10 apart do not interact. *)
Lemma apart_far a b c d u v u' v' :
  (100 <= (c - a) * (c - a) + (d - b) * (d - b))%R ->
  apart (fparticle a b u v 5) (fparticle c d u' v' 5).
Proof.
  intros H. apply collidePair_apart.
  assert (H10 : sqrt 100 = 10%R)
    by (replace 100%R with (Rsqr 10) by (unfold Rsqr; ring); apply sqrt_Rsqr; lra).
  pose proof (sqrt_le_1_alt _ _ H) as Hs. rewrite H10 in Hs.
  cbv zeta. lra.
Qed.

(** A particle whose position is NaN meets nothing: every comparison with
    NaN is false. *)
Lemma apart_nan u v r c d u' v' r' :
  apart (mkParticle NaN NaN u v (Fin r)) (fparticle c d u' v' r').
Proof. reflexivity. Qed.

Lemma nan_apart_all u v r (l : list (R * R)) :
  Forall (apart (mkParticle NaN NaN u v (Fin r)))
    (map (fun ab => fparticle (fst ab - 1) (snd ab) (-1) 0 5) l).
Proof.
  induction l as [| ab l IH]; cbn [map]; constructor; [apply apart_nan | exact IH].
Qed.

Ltac far_pairs :=
  repeat first
    [ apply FOP_nil | apply FOP_cons | apply Forall_nil | apply Forall_cons
    | apply apart_far; lra ].

Lemma background_apart :
  ForallOrdPairs apart
    (map (fun ab => fparticle (fst ab - 1) (snd ab) (-1) 0 5) background).
Proof. unfold background. cbn [map fst snd]. far_pairs. Qed.

End FrameFacts.

Import Scenario FrameFacts.

(** C1 counterexample: at temperature 4, the initialisation loop places
    particle 0 at (6, 200), particle 1 at (8, 200) and 48 more particles
    on a grid with spacing 30 in the rows y = 250 ... 340, all with velocity
    (-1, 0). One step: the position update puts particles 0 and 1 at x = 5
    and x = 7, which the wall pass leaves (5 - 5 is not below 0); the pair
    pass then moves each by half the overlap 8, so particle 0 ends the step
    at x = 1, outside [[5, 395]]. *)
Lemma step_leaves_box :
  length (ensemble [(6, 200); (8, 200)]%R background) = numParticles /\
  ~ Forall inBox (step (Fin 4) (ensemble [(6, 200); (8, 200)]%R background)).
Proof.
  split; [reflexivity |].
  assert (Hc : particleCollisions
                 (map wall (map move (ensemble [(6, 200); (8, 200)]%R background))) =
               fparticle 1 200 (-1) 0 5 :: fparticle 11 200 (-1) 0 5 ::
               map (fun ab => fparticle (fst ab - 1) (snd ab) (-1) 0 5) background).
  { rewrite ensemble_fin. cbn [app map fst snd].
    rewrite (wall_move_inner 6 200), (wall_move_inner 8 200) by lra.
    rewrite background_walls by exact background_range.
    unfold particleCollisions; cbn [length].
    apply collideRounds_front2.
    - apply collidePair_horizontal; abs_solve.
    - unfold background; cbn [map fst snd]; far_pairs.
    - unfold background; cbn [map fst snd]; far_pairs.
    - exact background_apart. }
  unfold step, thermostat; cbv zeta. rewrite Hc. cbn [map].
  intros HF. apply Forall_inv in HF.
  destruct HF as (a & b & Ha & _ & Hab & _).
  cbn [x rescale fparticle] in Ha. injection Ha as <-. lra.
Qed.

(** C4 (code bug): when two particles' centers coincide, [handleCollision]
    returns early, but the pair loop still runs its separation code with
    [dx / dist = 0 / 0 = NaN]. At temperature 4, the initialisation loop
    places particles 0 and 1 at (3, 200) and (4, 200) and 48 more on the
    grid of [background], all with velocity (-1, 0); in the first step the
    wall pass clamps particles 0 and 1 to the same point (5, 200), and after
    the step both have NaN coordinates. *)
Theorem step_coincident_nan :
  length (ensemble [(3, 200); (4, 200)]%R background) = numParticles /\
  exists p1 p2 rest,
    step (Fin 4) (ensemble [(3, 200); (4, 200)]%R background) = p1 :: p2 :: rest /\
    x p1 = NaN /\ y p1 = NaN /\ x p2 = NaN /\ y p2 = NaN.
Proof.
  split; [reflexivity |].
  unfold step, thermostat; cbv zeta.
  rewrite ensemble_fin. cbn [app map fst snd].
  rewrite (wall_move_left 3 200), (wall_move_left 4 200) by lra.
  rewrite background_walls by exact background_range.
  unfold particleCollisions; cbn [length].
  rewrite collideRounds_front2 with
      (p1' := mkParticle NaN NaN (Fin 1) (Fin 0) (Fin 5))
      (p2' := mkParticle NaN NaN (Fin 1) (Fin 0) (Fin 5)).
  - cbn [map]. do 3 eexists. split; [reflexivity |]. repeat split.
  - apply collidePair_coincident; lra.
  - apply nan_apart_all.
  - apply nan_apart_all.
  - exact background_apart.
Qed.

(** C5 counterexample: at temperature 4, the initialisation loop places
    particles 0, 1, 2 at (100, 200), (101, 200), (102, 200) and 47 more on
    the grid of [background] (its first point left out), all with velocity
    (-1, 0). In the first step the pair loop resolves (0,1), (0,2), then
    (1,2); the last separation pushes particle 2 back towards particle 0,
    and after the step particles 0 and 2 are [47/8] apart: they overlap by
    [33/8], far more than a numerical tolerance. *)
Lemma pair_loop_residual_overlap :
  length (ensemble [(100, 200); (101, 200); (102, 200)]%R (tl background)) =
    numParticles /\
  exists p0 p1 p2 rest,
    step (Fin 4) (ensemble [(100, 200); (101, 200); (102, 200)]%R (tl background)) =
      p0 :: p1 :: p2 :: rest /\
    x p0 = Fin (371 / 4) /\ y p0 = Fin 200 /\
    x p2 = Fin (789 / 8) /\ y p2 = Fin 200 /\
    sqrt ((789 / 8 - 371 / 4) * (789 / 8 - 371 / 4) + (200 - 200) * (200 - 200)) =
      (47 / 8)%R /\
    (47 / 8 < 5 + 5 - 4)%R.
Proof.
  split; [reflexivity |].
  unfold step, thermostat; cbv zeta.
  rewrite ensemble_fin. cbn [app map fst snd].
  rewrite (wall_move_inner 100 200), (wall_move_inner 101 200),
    (wall_move_inner 102 200) by lra.
  rewrite background_walls by exact (Forall_inv_tail background_range).
  unfold particleCollisions; cbn [length].
  rewrite collideRounds_front3 with
      (p1' := fparticle (189 / 2) 200 (-1) 0 5) (p2' := fparticle (209 / 2) 200 (-1) 0 5)
      (p1'' := fparticle (371 / 4) 200 (-1) 0 5) (p3' := fparticle (411 / 4) 200 (-1) 0 5)
      (p2'' := fparticle (869 / 8) 200 (-1) 0 5) (p3'' := fparticle (789 / 8) 200 (-1) 0 5).
  - cbn [map]. do 4 eexists. split; [reflexivity |].
    cbn [x y rescale fparticle].
    repeat split; [rewrite sqrt_horizontal; abs_solve | lra].
  - apply collidePair_horizontal; abs_solve.
  - apply collidePair_horizontal; abs_solve.
  - unfold background; cbn [tl map fst snd]; far_pairs.
  - apply collidePair_horizontal; abs_solve.
  - unfold background; cbn [tl map fst snd]; far_pairs.
  - unfold background; cbn [tl map fst snd]; far_pairs.
  - unfold background; cbn [tl map fst snd]; far_pairs.
Qed.

(** ** Facts about the distribution model *)

Module DistFacts.

Import Dist.

Lemma effectiveTemperature_fin T :
  effectiveTemperature (Fin T) = Fin (1 / 2 * T + 50).
Proof. reflexivity. Qed.

Lemma le_fin a b : JS.le (Fin a) (Fin b) = negb (Rltb b a).
Proof. reflexivity. Qed.

Lemma ge_fin a b : JS.ge (Fin a) (Fin b) = negb (Rltb a b).
Proof. reflexivity. Qed.

Lemma exp_fin a : JS.exp (Fin a) = Fin (exp a).
Proof. reflexivity. Qed.

Lemma pow15_pos a : (0 < a)%R -> JS.pow15 (Fin a) = Fin (Rpower a (3 / 2)).
Proof. intros H. cbn. now rewrite Rltb_true. Qed.

Lemma areaOf_acc pts a :
  fold_left (fun sum pt => JS.add sum (py pt)) (map finPoint pts) (Fin a) =
  Fin (a + massR pts).
Proof.
  revert a; induction pts as [| [e f] pts IH]; intros a; cbn [map fold_left].
  - unfold massR, Sim.sumR; cbn. f_equal; ring.
  - cbn [finPoint py fst snd]. rewrite add_fin, IH. f_equal.
    unfold massR, Sim.sumR; cbn. ring.
Qed.

Lemma areaOf_fin pts : areaOf (map finPoint pts) = Fin (massR pts).
Proof. unfold areaOf. rewrite areaOf_acc. f_equal; ring. Qed.

Lemma filter_fin t pts :
  filter (fun pt => JS.ge (px pt) (Fin t)) (map finPoint pts) =
  map finPoint (filter (fun ef => if Rle_dec t (fst ef) then true else false) pts).
Proof.
  induction pts as [| [e f] pts IH]; [reflexivity |].
  cbn [map filter finPoint px fst snd]. rewrite ge_fin, IH. unfold Rltb.
  destruct (Rlt_dec e t), (Rle_dec t e); cbn; try reflexivity; lra.
Qed.

Lemma meanSums_acc pts a b :
  fold_left (fun '(sumE, sumF) pt => (JS.add sumE (JS.mul (px pt) (py pt)),
                                        JS.add sumF (py pt)))
    (map finPoint pts) (Fin a, Fin b) =
  (Fin (a + weightedR pts), Fin (b + massR pts)).
Proof.
  revert a b; induction pts as [| [e f] pts IH]; intros a b; cbn [map fold_left].
  - unfold weightedR, massR, Sim.sumR; cbn. f_equal; f_equal; ring.
  - cbn [finPoint px py fst snd]. rewrite mul_fin, !add_fin, IH.
    unfold weightedR, massR, Sim.sumR; cbn. f_equal; f_equal; ring.
Qed.

Lemma meanSums_fin pts :
  meanSums (map finPoint pts) = (Fin (weightedR pts), Fin (massR pts)).
Proof. unfold meanSums. rewrite meanSums_acc. f_equal; f_equal; ring. Qed.

End DistFacts.

Import Dist DistFacts.

(** C7: over a curve of finite points (energy E, density f(E)), the mean
    energy of Effect 3 is the density-weighted average
    [(sum of E * f(E)) / (sum of f(E))] over all points, and 0 when the
    total density [sum of f(E)] is 0. *)
Theorem E_mean_weighted (pts : list (R * R)) :
  E_mean (map finPoint pts) =
  Fin (if Req_dec_T (massR pts) 0 then 0 else weightedR pts / massR pts)%R.
Proof.
  unfold E_mean. rewrite meanSums_fin, truthy_fin. unfold Reqb.
  destruct (Req_dec_T (massR pts) 0) as [H | H]; cbn [negb].
  - reflexivity.
  - apply div_fin; exact H.
Qed.

(** C8: over a curve of finite points, [percentageAbove] is 100 times the
    density summed over the points with [E >= threshold], divided by the
    total density, where the threshold is 400 with the catalyst off and 300
    with it on; it is 0 when the total density is 0. *)
Theorem percentageAbove_ratio (showCatalyst : bool) (pts : list (R * R)) :
  let threshold := (if showCatalyst then 300 else 400)%R in
  percentageAbove showCatalyst (map finPoint pts) =
  Fin (if Req_dec_T (massR pts) 0 then 0
       else 100 * massAboveR threshold pts / massR pts)%R.
Proof.
  intros threshold.
  unfold percentageAbove, activationThreshold.
  replace (if showCatalyst then Fin 300 else Fin 400) with (Fin threshold)
    by (unfold threshold; destruct showCatalyst; reflexivity).
  cbv zeta. rewrite filter_fin, !areaOf_fin, truthy_fin. unfold Reqb.
  destruct (Req_dec_T (massR pts) 0) as [H | H]; cbn [negb].
  - reflexivity.
  - rewrite div_fin by exact H. rewrite mul_fin. f_equal.
    unfold massAboveR. field. exact H.
Qed.

(** C6: for every energy [E >= 0] and temperature [T], with
    [T_eff = 0.5 * T + 50]: [mbDistribution E T] is 0 when [T_eff <= 0],
    and otherwise
    [0.72 * (2 / sqrt pi) * (2 / T_eff)^1.5 * sqrt E * exp (-E / T_eff) * 50]
    (sharpness 2, population 50). *)
Theorem mbDistribution_formula (E T : R) :
  (0 <= E)%R ->
  let T_eff := (1 / 2 * T + 50)%R in
  ((T_eff <= 0)%R -> mbDistribution (Fin E) (Fin T) = Fin 0) /\
  ((0 < T_eff)%R ->
   mbDistribution (Fin E) (Fin T) =
   Fin (72 / 100 * (2 / sqrt PI) * Rpower (2 / T_eff) (3 / 2) * sqrt E *
        exp (- E / T_eff) * 50)).
Proof.
  intros HE T_eff.
  unfold mbDistribution; cbv zeta.
  rewrite effectiveTemperature_fin, le_fin. fold T_eff.
  split; intros HT.
  - rewrite Rltb_false by lra. reflexivity.
  - rewrite Rltb_true by exact HT. cbn [negb].
    unfold sharpness, totalParticles.
    assert (Hpi : (0 < sqrt PI)%R) by (apply sqrt_lt_R0, PI_RGT_0).
    rewrite sqrt_fin by (left; apply PI_RGT_0).
    rewrite !div_fin by lra.
    rewrite pow15_pos by (apply Rdiv_lt_0_compat; lra).
    rewrite sqrt_fin by exact HE.
    rewrite neg_fin, div_fin, exp_fin by lra.
    rewrite !mul_fin. f_equal. ring.
Qed.

(** Witness of C6: energy 100 at temperature 300 ([T_eff = 200]). *)
Lemma mbDistribution_formula_witness :
  (0 <= 100)%R /\
  (((1 / 2 * 300 + 50) <= 0)%R -> mbDistribution (Fin 100) (Fin 300) = Fin 0) /\
  ((0 < 1 / 2 * 300 + 50)%R ->
   mbDistribution (Fin 100) (Fin 300) =
   Fin (72 / 100 * (2 / sqrt PI) * Rpower (2 / (1 / 2 * 300 + 50)) (3 / 2) *
        sqrt 100 * exp (- 100 / (1 / 2 * 300 + 50)) * 50)).
Proof.
  assert (H : (0 <= 100)%R) by lra.
  split; [exact H | exact (mbDistribution_formula 100 300 H)].
Defined.

(** * Further properties of the kinetics engine *)

Module InitFacts.

Import Sim.

(** The initialisation loop body at a temperature [T >= 0] in real numbers. *)
Lemma initParticle_fin (T rx ry ra : R) :
  (0 <= T)%R ->
  initParticle (Fin T) (Fin rx) (Fin ry) (Fin ra) =
  embed (mkR (rx * 400) (ry * 400)
             (1 / 2 * sqrt T * cos (ra * 2 * PI)) (1 / 2 * sqrt T * sin (ra * 2 * PI)) 5).
Proof.
  intros HT.
  unfold initParticle, width, height, baseSpeedFactor, embed, fparticle.
  rewrite sqrt_fin by exact HT. js_norm. cbn [JS.cos JS.sin]. js_norm.
  reflexivity.
Qed.

Lemma rspeed_init (T rx ry ra : R) :
  (0 <= T)%R ->
  rspeed (mkR (rx * 400) (ry * 400)
             (1 / 2 * sqrt T * cos (ra * 2 * PI)) (1 / 2 * sqrt T * sin (ra * 2 * PI)) 5) =
  (1 / 2 * sqrt T)%R.
Proof.
  intros HT. unfold rspeed; cbn [rvx rvy].
  pose proof (sin2_cos2 (ra * 2 * PI)) as Hsc. unfold Rsqr in Hsc.
  replace (1 / 2 * sqrt T * cos (ra * 2 * PI) * (1 / 2 * sqrt T * cos (ra * 2 * PI)) +
           1 / 2 * sqrt T * sin (ra * 2 * PI) * (1 / 2 * sqrt T * sin (ra * 2 * PI)))%R
    with ((1 / 2 * sqrt T) * (1 / 2 * sqrt T))%R.
  - apply sqrt_square. pose proof (sqrt_pos T); lra.
  - transitivity ((1 / 2 * sqrt T) * (1 / 2 * sqrt T) *
      (sin (ra * 2 * PI) * sin (ra * 2 * PI) + cos (ra * 2 * PI) * cos (ra * 2 * PI)))%R.
    + rewrite Hsc. ring.
    + ring.
Qed.

Lemma initParticles_embed (T : R) (draws : list (R * R * R)) :
  (0 <= T)%R ->
  initParticles (Fin T) draws =
  map embed (map (fun d => let '(rx, ry, ra) := d in
                   mkR (rx * 400) (ry * 400) (1 / 2 * sqrt T * cos (ra * 2 * PI))
                       (1 / 2 * sqrt T * sin (ra * 2 * PI)) 5) draws).
Proof.
  intros HT. unfold initParticles. rewrite map_map.
  apply map_ext. intros [[rx ry] ra]. apply initParticle_fin, HT.
Qed.

End InitFacts.

Import InitFacts.

(** X1: at a temperature [T >= 0], with the draws [Math.random()] for x
    and y in [[0, 1)], the initialisation loop body creates a finite
    particle of radius 5 inside [[0, 400) x [0, 400)] whose speed is
    exactly [0.5 * sqrt T], whatever the angle draw. *)
Theorem initParticle_speed (T rx ry ra : R) :
  (0 <= T)%R -> (0 <= rx < 1)%R -> (0 <= ry < 1)%R ->
  exists a b c d,
    initParticle (Fin T) (Fin rx) (Fin ry) (Fin ra) = fparticle a b c d 5 /\
    (0 <= a < 400)%R /\ (0 <= b < 400)%R /\
    sqrt (c * c + d * d) = (1 / 2 * sqrt T)%R.
Proof.
  intros HT Hx Hy.
  rewrite initParticle_fin by exact HT.
  exists (rx * 400)%R, (ry * 400)%R,
    (1 / 2 * sqrt T * cos (ra * 2 * PI))%R, (1 / 2 * sqrt T * sin (ra * 2 * PI))%R.
  split; [reflexivity |].
  split; [split; lra | split; [split; lra |]].
  exact (rspeed_init T rx ry ra HT).
Qed.

Lemma initParticle_speed_witness :
  (0 <= 4)%R /\ (0 <= 1 / 2 < 1)%R /\ (0 <= 1 / 4 < 1)%R /\
  exists a b c d,
    initParticle (Fin 4) (Fin (1 / 2)) (Fin (1 / 4)) (Fin (1 / 8)) = fparticle a b c d 5 /\
    (0 <= a < 400)%R /\ (0 <= b < 400)%R /\
    sqrt (c * c + d * d) = (1 / 2 * sqrt 4)%R.
Proof.
  assert (H1 : (0 <= 4)%R) by lra.
  assert (H2 : (0 <= 1 / 2 < 1)%R) by lra.
  assert (H3 : (0 <= 1 / 4 < 1)%R) by lra.
  split; [exact H1 | split; [exact H2 | split; [exact H3 |]]].
  exact (initParticle_speed 4 (1 / 2) (1 / 4) (1 / 8) H1 H2 H3).
Defined.

(** X2: at a temperature [T > 0], a nonempty ensemble created by the
    initialisation loop already has mean speed [0.5 * sqrt T]: the
    thermostat's average equals its target, and a thermostat pass at [T]
    leaves every particle as it is. *)
Theorem thermostat_after_init (T : R) (draws : list (R * R * R)) :
  (0 < T)%R -> draws <> [] ->
  avgSpeed (initParticles (Fin T) draws) = JS.mul baseSpeedFactor (JS.sqrt (Fin T)) /\
  thermostat (JS.mul baseSpeedFactor (JS.sqrt (Fin T))) (initParticles (Fin T) draws) =
  initParticles (Fin T) draws.
Proof.
  intros HT Hne.
  rewrite initParticles_embed by lra.
  set (g := fun d : R * R * R => let '(rx, ry, ra) := d in
              mkR (rx * 400) (ry * 400) (1 / 2 * sqrt T * cos (ra * 2 * PI))
                  (1 / 2 * sqrt T * sin (ra * 2 * PI)) 5).
  assert (Hsp : Forall (fun q => rspeed q = (1 / 2 * sqrt T)%R) (map g draws)).
  { apply Forall_map, Forall_forall. intros [[rx ry] ra] _.
    apply rspeed_init; lra. }
  assert (Hne' : map g draws <> []) by (destruct draws; [contradiction | discriminate]).
  assert (Hsum : sumR (map rspeed (map g draws)) =
                 (INR (length (map g draws)) * (1 / 2 * sqrt T))%R).
  { clear Hne Hne'. induction Hsp as [| q qs Hq _ IH]; unfold sumR in *; cbn [map fold_right length].
    - cbn. ring.
    - rewrite Hq, IH, S_INR. ring. }
  assert (Hn : (0 < INR (length (map g draws)))%R).
  { destruct (map g draws); [contradiction |]. apply lt_0_INR. cbn; lia. }
  assert (Havg : avgSpeed (map embed (map g draws)) = Fin (1 / 2 * sqrt T)).
  { rewrite avgSpeed_embed by exact Hne'. unfold meanSpeedR. rewrite Hsum.
    f_equal. field. lra. }
  assert (Hk : (0 < 1 / 2 * sqrt T)%R) by (pose proof (sqrt_lt_R0 T HT); lra).
  rewrite desired_fin by lra.
  split; [exact Havg |].
  unfold thermostat. rewrite Havg.
  unfold orOne. rewrite truthy_fin, Reqb_false by lra. cbn [negb].
  rewrite div_fin by lra.
  replace (1 / 2 * sqrt T / (1 / 2 * sqrt T))%R with 1%R by (field; lra).
  rewrite map_map. apply map_ext. intros q.
  rewrite rescale_embed. unfold rscale, embed, fparticle; cbn [rx ry rvx rvy rradius].
  repeat f_equal; ring.
Qed.

Lemma thermostat_after_init_witness :
  (0 < 4)%R /\ [(1 / 2, 1 / 2, 0)]%R <> [] /\
  avgSpeed (initParticles (Fin 4) [(1 / 2, 1 / 2, 0)]%R) =
    JS.mul baseSpeedFactor (JS.sqrt (Fin 4)) /\
  thermostat (JS.mul baseSpeedFactor (JS.sqrt (Fin 4)))
    (initParticles (Fin 4) [(1 / 2, 1 / 2, 0)]%R) =
  initParticles (Fin 4) [(1 / 2, 1 / 2, 0)]%R.
Proof.
  assert (H1 : (0 < 4)%R) by lra.
  assert (H2 : [(1 / 2, 1 / 2, 0)]%R <> []) by discriminate.
  split; [exact H1 | split; [exact H2 |]].
  exact (thermostat_after_init 4 _ H1 H2).
Defined.

Module WallSpeedFacts.

Import Sim.

Lemma vel_sq_abs c : (Rabs c * Rabs c = c * c)%R.
Proof. unfold Rabs; destruct (Rcase_abs c); ring. Qed.

Lemma wallX_fin a b c d r :
  exists a' c', wallX (fparticle a b c d r) = fparticle a' b c' d r /\ (c' * c' = c * c)%R.
Proof.
  unfold wallX, fparticle, width; cbn [x y vx vy radius].
  js_norm. unfold Rltb.
  destruct (Rlt_dec (a - r) 0).
  - exists r, (Rabs c). split; [reflexivity | apply vel_sq_abs].
  - destruct (Rlt_dec 400 (a + r)).
    + exists (400 - r)%R, (- Rabs c)%R. split; [reflexivity |].
      rewrite <- (vel_sq_abs c). ring.
    + exists a, c. split; reflexivity.
Qed.

Lemma wallY_fin a b c d r :
  exists b' d', wallY (fparticle a b c d r) = fparticle a b' c d' r /\ (d' * d' = d * d)%R.
Proof.
  unfold wallY, fparticle, height; cbn [x y vx vy radius].
  js_norm. unfold Rltb.
  destruct (Rlt_dec (b - r) 0).
  - exists r, (Rabs d). split; [reflexivity | apply vel_sq_abs].
  - destruct (Rlt_dec 400 (b + r)).
    + exists (400 - r)%R, (- Rabs d)%R. split; [reflexivity |].
      rewrite <- (vel_sq_abs d). ring.
    + exists b, d. split; reflexivity.
Qed.

End WallSpeedFacts.

Import WallSpeedFacts.

(** X3: the wall pass is elastic: for a finite particle of any radius,
    clamping and reflecting changes the direction of the velocity but
    never the speed. *)
Theorem wall_keeps_speed (a b c d r : R) :
  speed (wall (fparticle a b c d r)) = speed (fparticle a b c d r).
Proof.
  unfold wall.
  destruct (wallX_fin a b c d r) as (a' & c' & -> & Hc).
  destruct (wallY_fin a' b c' d r) as (b' & d' & -> & Hd).
  unfold speed, fparticle; cbn [vx vy]. js_norm.
  rewrite Hc, Hd. reflexivity.
Qed.

(** X4: the wall pass never touches a finite particle whose disc lies
    inside the box: [r <= x <= 400 - r] and [r <= y <= 400 - r]. *)
Theorem wall_inside_unchanged (a b c d r : R) :
  (r <= a <= 400 - r)%R -> (r <= b <= 400 - r)%R ->
  wall (fparticle a b c d r) = fparticle a b c d r.
Proof.
  intros Ha Hb.
  unfold wall, wallX, wallY, fparticle, width, height; cbn [x y vx vy radius].
  do 2 (js_norm; rdec; cbn [x y vx vy radius]).
  reflexivity.
Qed.

Lemma wall_inside_unchanged_witness :
  (5 <= 200 <= 400 - 5)%R /\ (5 <= 395 <= 400 - 5)%R /\
  wall (fparticle 200 395 3 4 5) = fparticle 200 395 3 4 5.
Proof.
  assert (H1 : (5 <= 200 <= 400 - 5)%R) by lra.
  assert (H2 : (5 <= 395 <= 400 - 5)%R) by lra.
  split; [exact H1 | split; [exact H2 |]].
  exact (wall_inside_unchanged 200 395 3 4 5 H1 H2).
Defined.

Module EnergyFacts.

Import Sim CollisionFacts.

(** [handleCollision] on finite particles: the new velocities, with the
    total momentum kept and the kinetic energy not increased. *)
Lemma handleCollision_balance (x1 y1 vx1 vy1 r1 x2 y2 vx2 vy2 r2 : R) :
  exists vx1' vy1' vx2' vy2',
    handleCollision (fparticle x1 y1 vx1 vy1 r1) (fparticle x2 y2 vx2 vy2 r2) =
      (fparticle x1 y1 vx1' vy1' r1, fparticle x2 y2 vx2' vy2' r2) /\
    (vx1' + vx2' = vx1 + vx2)%R /\ (vy1' + vy2' = vy1 + vy2)%R /\
    (vx1' * vx1' + vy1' * vy1' + (vx2' * vx2' + vy2' * vy2') <=
     vx1 * vx1 + vy1 * vy1 + (vx2 * vx2 + vy2 * vy2))%R.
Proof.
  set (d := sqrt ((x2 - x1) * (x2 - x1) + (y2 - y1) * (y2 - y1))).
  set (nx := ((x2 - x1) / d)%R). set (ny := ((y2 - y1) / d)%R).
  set (rel := ((vx2 - vx1) * nx + (vy2 - vy1) * ny)%R).
  assert (Hd0 : (0 <= d)%R) by apply sqrt_pos.
  destruct (Req_dec_T d 0) as [Hd | Hd].
  - do 4 eexists. split; [apply handleCollision_zero_dist; exact Hd |].
    repeat split; lra.
  - destruct (Rlt_dec 0 rel) as [Hrel | Hrel].
    + do 4 eexists. split; [apply handleCollision_separating; [fold d; lra | exact Hrel] |].
      repeat split; lra.
    + do 4 eexists. split; [apply handleCollision_impulse; [fold d; lra | exact Hrel] |].
      fold d nx ny rel.
      assert (Hn : (nx * nx + ny * ny = 1)%R) by (apply unit_normal; fold d; lra).
      set (j := (- (1 + 9 / 10) * rel / 2)%R).
      split; [ring | split; [ring |]].
      assert (E : ((vx1 - j * nx) * (vx1 - j * nx) + (vy1 - j * ny) * (vy1 - j * ny) +
                  ((vx2 + j * nx) * (vx2 + j * nx) + (vy2 + j * ny) * (vy2 + j * ny)) =
                  vx1 * vx1 + vy1 * vy1 + (vx2 * vx2 + vy2 * vy2) +
                  (2 * j * rel + 2 * j * j * (nx * nx + ny * ny)))%R)
        by (unfold rel; ring).
      rewrite E, Hn.
      assert (Ej : (2 * j * rel + 2 * j * j * 1 = - (19 / 200) * (rel * rel))%R)
        by (unfold j; field).
      rewrite Ej. nra.
Qed.

End EnergyFacts.

Import EnergyFacts.

(** X5: a collision of two finite particles never increases their kinetic
    energy: the sum of the squared speeds after [handleCollision] is at
    most the sum before (the impulse removes [(1 - 0.9^2) / 2] times the
    square of the relative normal velocity). *)
Theorem handleCollision_energy (x1 y1 vx1 vy1 r1 x2 y2 vx2 vy2 r2 : R) :
  exists vx1' vy1' vx2' vy2',
    handleCollision (fparticle x1 y1 vx1 vy1 r1) (fparticle x2 y2 vx2 vy2 r2) =
      (fparticle x1 y1 vx1' vy1' r1, fparticle x2 y2 vx2' vy2' r2) /\
    (vx1' * vx1' + vy1' * vy1' + (vx2' * vx2' + vy2' * vy2') <=
     vx1 * vx1 + vy1 * vy1 + (vx2 * vx2 + vy2 * vy2))%R.
Proof.
  destruct (handleCollision_balance x1 y1 vx1 vy1 r1 x2 y2 vx2 vy2 r2)
    as (a & b & c & d & H & _ & _ & HE).
  exists a, b, c, d. split; assumption.
Qed.

(** X6: the pair loop changes nothing in an ensemble of finite particles
    in which every two centers are at least the sum of the two radii
    apart. *)
Theorem particleCollisions_separated (qs : list rparticle) :
  ForallOrdPairs (fun q1 q2 =>
    rradius q1 + rradius q2 <=
    sqrt ((rx q2 - rx q1) * (rx q2 - rx q1) + (ry q2 - ry q1) * (ry q2 - ry q1)))%R qs ->
  particleCollisions (map embed qs) = map embed qs.
Proof.
  intros H. unfold particleCollisions. apply collideRounds_apart.
  induction H as [| q qs Hq _ IH]; cbn [map]; constructor; [| exact IH].
  apply Forall_map. eapply Forall_impl; [| exact Hq].
  intros q' Hd. unfold embed. apply collidePair_apart. lra.
Qed.

Lemma particleCollisions_separated_witness :
  ForallOrdPairs (fun q1 q2 =>
    rradius q1 + rradius q2 <=
    sqrt ((rx q2 - rx q1) * (rx q2 - rx q1) + (ry q2 - ry q1) * (ry q2 - ry q1)))%R
    [mkR 100 100 1 0 5; mkR 120 100 (-1) 0 5] /\
  particleCollisions (map embed [mkR 100 100 1 0 5; mkR 120 100 (-1) 0 5]) =
    map embed [mkR 100 100 1 0 5; mkR 120 100 (-1) 0 5].
Proof.
  assert (H : ForallOrdPairs (fun q1 q2 =>
    rradius q1 + rradius q2 <=
    sqrt ((rx q2 - rx q1) * (rx q2 - rx q1) + (ry q2 - ry q1) * (ry q2 - ry q1)))%R
    [mkR 100 100 1 0 5; mkR 120 100 (-1) 0 5]).
  { repeat constructor. cbn [rx ry rradius].
    rewrite sqrt_horizontal, Rabs_pos_eq; lra. }
  split; [exact H | exact (particleCollisions_separated _ H)].
Defined.

Module MomentumFacts.

Import Sim CollisionFacts PairFacts.

Lemma apart_nan_r a b c d r u v r' :
  apart (fparticle a b c d r) (mkParticle NaN NaN u v (Fin r')).
Proof. reflexivity. Qed.

Lemma apart_nan_nan u v r u' v' r' :
  apart (mkParticle NaN NaN u v (Fin r)) (mkParticle NaN NaN u' v' (Fin r')).
Proof. reflexivity. Qed.

Lemma sqrt_sum_sq_zero a b :
  sqrt (a * a + b * b) = 0%R -> a = 0%R /\ b = 0%R.
Proof.
  intros H. apply sqrt_eq_0 in H; [| apply sum_sq_nonneg]. split; nra.
Qed.

(** One pass of the pair-loop body keeps both particles well formed and
    the momentum of the pair. *)
Lemma collidePair_wf p q p' q' :
  wellFormed p -> wellFormed q -> collidePair p q = (p', q') ->
  wellFormed p' /\ wellFormed q' /\
  (rval (vx p') + rval (vx q') = rval (vx p) + rval (vx q))%R /\
  (rval (vy p') + rval (vy q') = rval (vy p) + rval (vy q))%R.
Proof.
  intros [(a1 & b1 & c1 & d1 & r1 & ->) | (c1 & d1 & r1 & ->)]
         [(a2 & b2 & c2 & d2 & r2 & ->) | (c2 & d2 & r2 & ->)] Hc.
  - set (dd := sqrt ((a2 - a1) * (a2 - a1) + (b2 - b1) * (b2 - b1))) in *.
    destruct (Rlt_dec dd (r1 + r2)) as [Hlt | Hge].
    + destruct (Req_dec_T dd 0) as [H0 | H0].
      * destruct (sqrt_sum_sq_zero _ _ H0) as [Ha Hb].
        replace a2 with a1 in * by lra. replace b2 with b1 in * by lra.
        rewrite collidePair_coincident in Hc by lra.
        injection Hc as <- <-.
        split; [right; do 3 eexists; reflexivity |].
        split; [right; do 3 eexists; reflexivity |].
        cbn. split; ring.
      * destruct (handleCollision_balance a1 b1 c1 d1 r1 a2 b2 c2 d2 r2)
          as (c1' & d1' & c2' & d2' & Hh & Hx & Hy & _).
        assert (Hpos : (0 < dd)%R) by (pose proof (sqrt_pos
          ((a2 - a1) * (a2 - a1) + (b2 - b1) * (b2 - b1))) as Hs; fold dd in Hs; lra).
        rewrite (collidePair_overlap a1 b1 c1 d1 r1 a2 b2 c2 d2 r2 c1' d1' c2' d2'
                   Hpos Hlt Hh) in Hc.
        injection Hc as <- <-.
        split; [left; do 5 eexists; reflexivity |].
        split; [left; do 5 eexists; reflexivity |].
        cbn. split; assumption.
    + rewrite collidePair_apart in Hc by exact Hge.
      injection Hc as <- <-.
      split; [left; do 5 eexists; reflexivity |].
      split; [left; do 5 eexists; reflexivity |].
      split; reflexivity.
  - rewrite apart_nan_r in Hc. injection Hc as <- <-.
    split; [left; do 5 eexists; reflexivity |].
    split; [right; do 3 eexists; reflexivity |].
    split; reflexivity.
  - rewrite (apart_nan (Fin c1) (Fin d1) r1 a2 b2 c2 d2 r2) in Hc.
    injection Hc as <- <-.
    split; [right; do 3 eexists; reflexivity |].
    split; [left; do 5 eexists; reflexivity |].
    split; reflexivity.
  - rewrite apart_nan_nan in Hc. injection Hc as <- <-.
    split; [right; do 3 eexists; reflexivity |].
    split; [right; do 3 eexists; reflexivity |].
    split; reflexivity.
Qed.

Lemma momentum_cons v p ps :
  momentum v (p :: ps) = (rval (v p) + momentum v ps)%R.
Proof. reflexivity. Qed.

Lemma collideWith_wf p rest p' rest' :
  wellFormed p -> Forall wellFormed rest -> collideWith p rest = (p', rest') ->
  wellFormed p' /\ Forall wellFormed rest' /\
  momentum vx (p' :: rest') = momentum vx (p :: rest) /\
  momentum vy (p' :: rest') = momentum vy (p :: rest).
Proof.
  revert p p' rest'.
  induction rest as [| q rest IH]; intros p p' rest' Hp Hr Hc.
  - cbn in Hc. injection Hc as <- <-. repeat split; auto.
  - inversion Hr as [| q0 rest0 Hq Hrest]; subst.
    cbn [collideWith] in Hc.
    destruct (collidePair p q) as [p1 q1] eqn:E1.
    destruct (collideWith p1 rest) as [p2 rest2] eqn:E2.
    injection Hc as <- <-.
    destruct (collidePair_wf p q p1 q1 Hp Hq E1) as (Hp1 & Hq1 & Hx1 & Hy1).
    destruct (IH p1 p2 rest2 Hp1 Hrest E2) as (Hp2 & Hr2 & Hx2 & Hy2).
    rewrite !momentum_cons in *.
    repeat split; auto; lra.
Qed.

Lemma collideRounds_wf n ps :
  Forall wellFormed ps ->
  Forall wellFormed (collideRounds n ps) /\
  momentum vx (collideRounds n ps) = momentum vx ps /\
  momentum vy (collideRounds n ps) = momentum vy ps.
Proof.
  revert ps. induction n as [| n IH]; intros ps Hps; [repeat split; auto |].
  destruct ps as [| p rest]; [repeat split; auto |].
  inversion Hps as [| p0 rest0 Hp Hrest]; subst.
  cbn [collideRounds].
  destruct (collideWith p rest) as [p' rest'] eqn:E.
  destruct (collideWith_wf p rest p' rest' Hp Hrest E) as (Hp' & Hr' & Hx & Hy).
  destruct (IH rest' Hr') as (Hr'' & Hx' & Hy').
  rewrite !momentum_cons in *.
  repeat split; [constructor; auto | lra | lra].
Qed.

End MomentumFacts.

Import MomentumFacts.

(** X7: the pair loop keeps the total momentum of the ensemble along each
    axis (unit masses), and keeps every velocity finite: from particles
    with finite fields (or NaN positions left by an earlier pass), it only
    yields such particles, even when two centers coincide. *)
Theorem particleCollisions_momentum (ps : list particle) :
  Forall wellFormed ps ->
  Forall wellFormed (particleCollisions ps) /\
  momentum vx (particleCollisions ps) = momentum vx ps /\
  momentum vy (particleCollisions ps) = momentum vy ps.
Proof. intros H. apply collideRounds_wf, H. Qed.

Lemma particleCollisions_momentum_witness :
  Forall wellFormed [fparticle 0 0 1 0 5; fparticle 6 0 (-1) 0 5; fparticle 6 0 0 2 5] /\
  Forall wellFormed
    (particleCollisions [fparticle 0 0 1 0 5; fparticle 6 0 (-1) 0 5; fparticle 6 0 0 2 5]) /\
  momentum vx (particleCollisions
    [fparticle 0 0 1 0 5; fparticle 6 0 (-1) 0 5; fparticle 6 0 0 2 5]) =
    momentum vx [fparticle 0 0 1 0 5; fparticle 6 0 (-1) 0 5; fparticle 6 0 0 2 5] /\
  momentum vy (particleCollisions
    [fparticle 0 0 1 0 5; fparticle 6 0 (-1) 0 5; fparticle 6 0 0 2 5]) =
    momentum vy [fparticle 0 0 1 0 5; fparticle 6 0 (-1) 0 5; fparticle 6 0 0 2 5].
Proof.
  assert (H : Forall wellFormed
                [fparticle 0 0 1 0 5; fparticle 6 0 (-1) 0 5; fparticle 6 0 0 2 5])
    by (repeat (apply Forall_cons; [left; do 5 eexists; reflexivity |]); apply Forall_nil).
  split; [exact H | exact (particleCollisions_momentum _ H)].
Defined.

(** * Further properties of the distribution chart *)

Module CurveFacts.

Import Dist DistFacts.

Lemma mb_fin (E T : R) :
  (0 <= E)%R -> (0 < 1 / 2 * T + 50)%R ->
  mbDistribution (Fin E) (Fin T) = Fin (densityR (1 / 2 * T + 50) E).
Proof.
  intros HE HT.
  unfold mbDistribution, densityR; cbv zeta.
  rewrite effectiveTemperature_fin, le_fin.
  rewrite Rltb_true by exact HT. cbn [negb].
  unfold sharpness, totalParticles.
  assert (Hpi : (0 < sqrt PI)%R) by (apply sqrt_lt_R0, PI_RGT_0).
  rewrite sqrt_fin by (left; apply PI_RGT_0).
  rewrite !div_fin by lra.
  rewrite pow15_pos by (apply Rdiv_lt_0_compat; lra).
  rewrite sqrt_fin by exact HE.
  rewrite neg_fin, div_fin, exp_fin by lra.
  rewrite !mul_fin. f_equal. ring.
Qed.

Lemma mb_cold (E : num) (T : R) :
  (1 / 2 * T + 50 <= 0)%R -> mbDistribution E (Fin T) = Fin 0.
Proof.
  intros HT. unfold mbDistribution; cbv zeta.
  rewrite effectiveTemperature_fin, le_fin, Rltb_false by lra. reflexivity.
Qed.

(** The density is the positive constant [densityK Teff] times
    [sqrt E * exp (- E / Teff)]. *)
Lemma densityR_factor Teff E :
  densityR Teff E =
  (72 / 100 * (2 / sqrt PI) * Rpower (2 / Teff) (3 / 2) * 50 *
   (sqrt E * exp (- E / Teff)))%R.
Proof. unfold densityR. ring. Qed.

Lemma densityK_pos Teff :
  (0 < 72 / 100 * (2 / sqrt PI) * Rpower (2 / Teff) (3 / 2) * 50)%R.
Proof.
  assert (Hpi : (0 < sqrt PI)%R) by (apply sqrt_lt_R0, PI_RGT_0).
  assert (Hp : (0 < Rpower (2 / Teff) (3 / 2))%R) by (unfold Rpower; apply exp_pos).
  assert (H2 : (0 < 2 / sqrt PI)%R) by (apply Rdiv_lt_0_compat; lra).
  apply Rmult_lt_0_compat; [| lra].
  apply Rmult_lt_0_compat; [| exact Hp].
  apply Rmult_lt_0_compat; lra.
Qed.

Lemma densityR_nonneg Teff E : (0 <= densityR Teff E)%R.
Proof.
  rewrite densityR_factor.
  apply Rmult_le_pos; [left; apply densityK_pos |].
  apply Rmult_le_pos; [apply sqrt_pos | left; apply exp_pos].
Qed.

Lemma densityR_pos Teff E : (0 < E)%R -> (0 < densityR Teff E)%R.
Proof.
  intros HE. rewrite densityR_factor.
  apply Rmult_lt_0_compat; [apply densityK_pos |].
  apply Rmult_lt_0_compat; [apply sqrt_lt_R0, HE | apply exp_pos].
Qed.

(** The square of [sqrt E * exp (- E / Teff)]. *)
Lemma shape_sq Teff E :
  (0 <= E)%R ->
  ((sqrt E * exp (- E / Teff)) * (sqrt E * exp (- E / Teff)) =
   E * exp (- (2 * E) / Teff))%R.
Proof.
  intros HE.
  replace (- (2 * E) / Teff)%R with (- E / Teff + - E / Teff)%R by (unfold Rdiv; ring).
  rewrite exp_plus.
  transitivity (sqrt E * sqrt E * (exp (- E / Teff) * exp (- E / Teff)))%R; [ring |].
  rewrite sqrt_sqrt by exact HE. reflexivity.
Qed.

Lemma lt_of_sq a b : (0 <= a)%R -> (0 <= b)%R -> (a * a < b * b)%R -> (a < b)%R.
Proof. intros Ha Hb H. nra. Qed.

(** [sqrt E * exp (- E / Teff)] increases up to [Teff / 2]. *)
Lemma shape_increasing Teff E E' :
  (0 < Teff)%R -> (0 <= E)%R -> (E < E')%R -> (2 * E' <= Teff)%R ->
  (sqrt E * exp (- E / Teff) < sqrt E' * exp (- E' / Teff))%R.
Proof.
  intros HT HE HEE' HE'.
  apply lt_of_sq.
  - apply Rmult_le_pos; [apply sqrt_pos | left; apply exp_pos].
  - apply Rmult_le_pos; [apply sqrt_pos | left; apply exp_pos].
  - rewrite !shape_sq by lra.
    set (u := (2 * (E - E') / Teff)%R).
    set (v := ((E - E') / E')%R).
    assert (Hvu : (v <= u)%R).
    { unfold u, v. apply Rmult_le_reg_r with (E' * Teff)%R; [nra |].
      unfold Rdiv.
      replace ((E - E') * / E' * (E' * Teff))%R with ((E - E') * Teff)%R by (field; lra).
      replace (2 * (E - E') * / Teff * (E' * Teff))%R with (2 * (E - E') * E')%R
        by (field; lra).
      nra. }
    assert (Hv : (1 + v < exp v)%R) by (apply exp_ineq1; unfold v; intros H;
      apply Rmult_integral in H as [H | H]; [lra | pose proof (Rinv_neq_0_compat E'); lra]).
    assert (Hev : (exp v <= exp u)%R) by (destruct Hvu as [Hl | ->]; [left; apply exp_increasing, Hl | right; reflexivity]).
    assert (H1v : (E' * (1 + v) = E)%R) by (unfold v; field; lra).
    assert (Hsplit : exp (- (2 * E') / Teff) = (exp u * exp (- (2 * E) / Teff))%R).
    { rewrite <- exp_plus. f_equal. unfold u, Rdiv. ring. }
    rewrite Hsplit.
    pose proof (exp_pos (- (2 * E) / Teff)) as Hp.
    assert (HE'u : (E < E' * exp u)%R) by nra.
    nra.
Qed.

(** ... and decreases from [Teff / 2] on. *)
Lemma shape_decreasing Teff E E' :
  (0 < Teff)%R -> (Teff <= 2 * E)%R -> (E < E')%R ->
  (sqrt E' * exp (- E' / Teff) < sqrt E * exp (- E / Teff))%R.
Proof.
  intros HT HE HEE'.
  apply lt_of_sq.
  - apply Rmult_le_pos; [apply sqrt_pos | left; apply exp_pos].
  - apply Rmult_le_pos; [apply sqrt_pos | left; apply exp_pos].
  - rewrite !shape_sq by lra.
    set (w := (2 * (E' - E) / Teff)%R).
    set (v := ((E' - E) / E)%R).
    assert (Hvw : (v <= w)%R).
    { unfold w, v. apply Rmult_le_reg_r with (E * Teff)%R; [nra |].
      unfold Rdiv.
      replace ((E' - E) * / E * (E * Teff))%R with ((E' - E) * Teff)%R by (field; lra).
      replace (2 * (E' - E) * / Teff * (E * Teff))%R with (2 * (E' - E) * E)%R
        by (field; lra).
      nra. }
    assert (Hv : (1 + v < exp v)%R) by (apply exp_ineq1; unfold v; intros H;
      apply Rmult_integral in H as [H | H]; [lra | pose proof (Rinv_neq_0_compat E); lra]).
    assert (Hev : (exp v <= exp w)%R) by (destruct Hvw as [Hl | ->]; [left; apply exp_increasing, Hl | right; reflexivity]).
    assert (H1v : (E * (1 + v) = E')%R) by (unfold v; field; lra).
    assert (Hsplit : exp (- (2 * E) / Teff) = (exp w * exp (- (2 * E') / Teff))%R).
    { rewrite <- exp_plus. f_equal. unfold w, Rdiv. ring. }
    rewrite Hsplit.
    pose proof (exp_pos (- (2 * E') / Teff)) as Hp.
    assert (HE'w : (E' < E * exp w)%R) by nra.
    nra.
Qed.

Lemma curve_fin (T : R) :
  (0 < 1 / 2 * T + 50)%R ->
  dynamicData (Fin T) = map finPoint (curveR (1 / 2 * T + 50)).
Proof.
  intros HT. unfold dynamicData, curveR, energies. rewrite !map_map.
  apply map_ext. intros i. unfold finPoint; cbn [fst snd].
  rewrite mb_fin by (apply pos_INR || exact HT). reflexivity.
Qed.

Lemma curve_cold (T : R) :
  (1 / 2 * T + 50 <= 0)%R ->
  dynamicData (Fin T) = map finPoint (map (fun i => (INR i, 0%R)) (seq 0 (S energiesN))).
Proof.
  intros HT. unfold dynamicData, energies. rewrite !map_map.
  apply map_ext. intros i. unfold finPoint; cbn [fst snd].
  rewrite mb_cold by exact HT. reflexivity.
Qed.

(** Every curve is a list of finite points with energies in [[0, 600]] and
    nonnegative densities. *)
Lemma curve_points (T : R) :
  exists pts, dynamicData (Fin T) = map finPoint pts /\
    Forall (fun ef => 0 <= fst ef <= 600 /\ 0 <= snd ef)%R pts.
Proof.
  assert (Hgrid : forall i, In i (seq 0 (S energiesN)) -> (0 <= INR i <= 600)%R).
  { intros i Hi. apply in_seq in Hi. unfold energiesN in Hi.
    split; [apply pos_INR |]. replace 600%R with (INR 600) by (cbn; ring).
    apply le_INR. lia. }
  destruct (Rlt_dec 0 (1 / 2 * T + 50)) as [HT | HT].
  - exists (curveR (1 / 2 * T + 50)). split; [apply curve_fin, HT |].
    unfold curveR. apply Forall_map, Forall_forall. intros i Hi. cbn [fst snd].
    split; [apply Hgrid, Hi | apply densityR_nonneg].
  - eexists. split; [apply curve_cold; lra |].
    apply Forall_map, Forall_forall. intros i Hi. cbn [fst snd].
    split; [apply Hgrid, Hi | lra].
Qed.

Lemma massR_nonneg pts : Forall (fun ef => 0 <= snd ef)%R pts -> (0 <= massR pts)%R.
Proof.
  induction 1 as [| ef pts H _ IH]; unfold massR, Sim.sumR in *; cbn; lra.
Qed.

Lemma massAboveR_mono t1 t2 pts :
  (t1 <= t2)%R -> Forall (fun ef => 0 <= snd ef)%R pts ->
  (0 <= massAboveR t2 pts <= massAboveR t1 pts)%R /\ (massAboveR t1 pts <= massR pts)%R.
Proof.
  intros Ht. induction 1 as [| [e f] pts H _ IH]; unfold massAboveR, massR, Sim.sumR in *;
    cbn [filter fst snd] in *; [cbn; lra |].
  destruct (Rle_dec t1 e), (Rle_dec t2 e); cbn [map fold_right snd] in *; lra.
Qed.

Lemma weightedR_bounds pts :
  Forall (fun ef => 0 <= fst ef <= 600 /\ 0 <= snd ef)%R pts ->
  (0 <= weightedR pts <= 600 * massR pts)%R.
Proof.
  induction 1 as [| [e f] pts [He Hf] _ IH]; unfold weightedR, massR, Sim.sumR in *;
    cbn [map fold_right fst snd] in *; [lra | nra].
Qed.

Lemma percentage_fin (showCatalyst : bool) (pts : list (R * R)) :
  percentageAbove showCatalyst (map finPoint pts) =
  Fin (if Req_dec_T (massR pts) 0 then 0
       else 100 * massAboveR (if showCatalyst then 300 else 400) pts / massR pts)%R.
Proof.
  unfold percentageAbove, activationThreshold.
  replace (if showCatalyst then Fin 300 else Fin 400)
    with (Fin (if showCatalyst then 300 else 400)%R) by (destruct showCatalyst; reflexivity).
  cbv zeta. rewrite filter_fin, !areaOf_fin, truthy_fin. unfold Reqb.
  destruct (Req_dec_T (massR pts) 0) as [H | H]; cbn [negb].
  - reflexivity.
  - rewrite div_fin by exact H. rewrite mul_fin. f_equal.
    unfold massAboveR. field. exact H.
Qed.

Lemma E_mean_fin (pts : list (R * R)) :
  E_mean (map finPoint pts) =
  Fin (if Req_dec_T (massR pts) 0 then 0 else weightedR pts / massR pts)%R.
Proof.
  unfold E_mean. rewrite meanSums_fin, truthy_fin. unfold Reqb.
  destruct (Req_dec_T (massR pts) 0) as [H | H]; cbn [negb].
  - reflexivity.
  - apply div_fin; exact H.
Qed.

(** The mode scan over finite points from a finite accumulator [(m, e)]:
    it ends at [(M, Ex)] with either nothing replaced, or [M > m] the
    density of a point [(Ex, M)] of the list; every density is at most
    [M]. *)
Lemma mode_fold (pts : list (R * R)) (m e : R) :
  exists M Ex,
    fold_left (fun '(maxY, E_mode) pt =>
                 if JS.gt (py pt) maxY then (py pt, px pt) else (maxY, E_mode))
      (map finPoint pts) (Fin m, Fin e) = (Fin M, Fin Ex) /\
    ((M = m /\ Ex = e) \/ (m < M /\ In (Ex, M) pts))%R /\
    Forall (fun ef => snd ef <= M)%R pts.
Proof.
  revert m e. induction pts as [| [x0 y0] pts IH]; intros m e.
  - exists m, e. split; [reflexivity |]. split; [left; split; reflexivity | constructor].
  - cbn [map fold_left finPoint px py fst snd]. rewrite gt_fin. unfold Rltb.
    destruct (Rlt_dec m y0) as [Hlt | Hge].
    + destruct (IH y0 x0) as (M & Ex & Hf & Halt & Hall).
      exists M, Ex. split; [exact Hf |].
      assert (HyM : (y0 <= M)%R)
        by (destruct Halt as [[-> _] | [H _]]; lra).
      split.
      * right. destruct Halt as [[-> ->] | [H Hin]].
        -- split; [exact Hlt | left; reflexivity].
        -- split; [lra | right; exact Hin].
      * constructor; [exact HyM | exact Hall].
    + destruct (IH m e) as (M & Ex & Hf & Halt & Hall).
      exists M, Ex. split; [exact Hf |].
      assert (HmM : (m <= M)%R) by (destruct Halt as [[-> _] | [H _]]; lra).
      split.
      * destruct Halt as [Heq | [H Hin]]; [left; exact Heq | right; split; [exact H | right; exact Hin]].
      * constructor; [cbn [snd]; lra | exact Hall].
Qed.

(** The first step of the mode scan: any finite density beats
    [-Infinity]. *)
Lemma modeSearch_cons (x0 y0 : R) (pts : list (R * R)) :
  modeSearch (map finPoint ((x0, y0) :: pts)) =
  fold_left (fun '(maxY, E_mode) pt =>
               if JS.gt (py pt) maxY then (py pt, px pt) else (maxY, E_mode))
    (map finPoint pts) (Fin y0, Fin x0).
Proof. reflexivity. Qed.

End CurveFacts.

Import CurveFacts.


Lemma shape_density Teff E E' :
  (sqrt E * exp (- E / Teff) < sqrt E' * exp (- E' / Teff))%R ->
  (densityR Teff E < densityR Teff E')%R.
Proof.
  intros H. rewrite !densityR_factor.
  apply Rmult_lt_compat_l; [apply densityK_pos | exact H].
Qed.

Lemma curve_split Teff :
  curveR Teff = (0%R, densityR Teff 0) ::
    map (fun i => (INR i, densityR Teff (INR i))) (seq 1 energiesN).
Proof. reflexivity. Qed.

Lemma in_rest Teff m :
  (1 <= m <= 600)%nat ->
  In (INR m, densityR Teff (INR m))
    (map (fun i => (INR i, densityR Teff (INR i))) (seq 1 energiesN)).
Proof.
  intros Hm. apply in_map_iff. exists m. split; [reflexivity |].
  apply in_seq. unfold energiesN. lia.
Qed.

Lemma massR_zero (f : nat -> R) l : massR (map (fun i => (f i, 0%R)) l) = 0%R.
Proof.
  induction l as [| i l IH]; [reflexivity |].
  unfold massR, Sim.sumR in *. cbn [map fold_right snd] in *. rewrite IH. ring.
Qed.

Lemma massAboveR_zero (t : R) (f : nat -> R) l :
  massAboveR t (map (fun i => (f i, 0%R)) l) = 0%R.
Proof.
  induction l as [| i l IH]; [reflexivity |].
  unfold massAboveR in *. cbn [map filter fst] in *.
  destruct (Rle_dec t (f i)); [| exact IH].
  unfold massR, Sim.sumR in *. cbn [map fold_right snd] in *. rewrite IH. ring.
Qed.



(** X9: for an effective temperature [Teff = T / 2 + 50] in [(0, 1200]]
    the mode scan over the curve returns a grid energy [n] within one unit
    of [Teff / 2] together with its density, and no grid point has a
    larger density. *)
Theorem modeSearch_near_peak (T : R) :
  (0 < 1 / 2 * T + 50 <= 1200)%R ->
  exists n, (n <= 600)%nat /\
    modeSearch (dynamicData (Fin T)) =
      (Fin (densityR (1 / 2 * T + 50) (INR n)), Fin (INR n)) /\
    ((1 / 2 * T + 50) / 2 - 1 < INR n < (1 / 2 * T + 50) / 2 + 1)%R /\
    (forall m, (m <= 600)%nat ->
       (densityR (1 / 2 * T + 50) (INR m) <= densityR (1 / 2 * T + 50) (INR n))%R).
Proof.
  intros [HT HT'].
  set (Te := (1 / 2 * T + 50)%R) in *.
  rewrite curve_fin by exact HT. fold Te.
  rewrite curve_split, modeSearch_cons.
  destruct (mode_fold (map (fun i => (INR i, densityR Te (INR i))) (seq 1 energiesN))
              (densityR Te 0) 0) as (M & Ex & Hf & Halt & Hall).
  rewrite Hf.
  rewrite Forall_forall in Hall.
  assert (Hle : forall m, (1 <= m <= 600)%nat -> (densityR Te (INR m) <= M)%R)
    by (intros m Hm; apply (Hall _ (in_rest Te m Hm))).
  destruct Halt as [[HM HE] | [HM Hin]].
  - exfalso. pose proof (Hle 1%nat ltac:(lia)) as H1.
    pose proof (densityR_pos Te (INR 1) ltac:(simpl; lra)) as H2.
    rewrite HM in H1. unfold densityR in H1 at 2. rewrite sqrt_0 in H1. lra.
  - apply in_map_iff in Hin as (n & Heq & Hn).
    injection Heq as <- <-. apply in_seq in Hn. unfold energiesN in Hn.
    assert (Hn0 : forall m, (m <= 600)%nat -> (densityR Te (INR m) <= densityR Te (INR n))%R).
    { intros [| m] Hm.
      - unfold densityR at 1. cbn [INR]. rewrite sqrt_0.
        replace (72 / 100 * (2 / sqrt PI) * Rpower (2 / Te) (3 / 2) * 0 * exp (- 0 / Te) * 50)%R
          with 0%R by ring.
        apply densityR_nonneg.
      - apply Hle. lia. }
    exists n. split; [lia |]. split; [reflexivity |]. split; [| exact Hn0].
    split.
    + destruct (Rlt_dec (Te / 2 - 1) (INR n)) as [Hlt | Hge]; [exact Hlt | exfalso].
      assert (HSn : (INR (S n) <= Te / 2)%R) by (rewrite S_INR; lra).
      assert (HS600 : (S n <= 600)%nat)
        by (apply INR_le; replace (INR 600) with 600%R by (cbn; ring); lra).
      pose proof (shape_increasing Te (INR n) (INR (S n)) HT (pos_INR n)
                    ltac:(rewrite S_INR; lra) ltac:(lra)) as Hinc.
      apply shape_density in Hinc.
      pose proof (Hn0 (S n) HS600). lra.
    + destruct (Rlt_dec (INR n) (Te / 2 + 1)) as [Hlt | Hge]; [exact Hlt | exfalso].
      destruct n as [| k]; [cbn [INR] in Hge; lra |].
      rewrite S_INR in Hge.
      pose proof (shape_decreasing Te (INR k) (INR (S k)) HT ltac:(lra)
                    ltac:(rewrite S_INR; lra)) as Hdec.
      apply shape_density in Hdec.
      pose proof (Hn0 k ltac:(lia)). lra.
Qed.

Lemma modeSearch_near_peak_witness :
  (0 < 1 / 2 * 300 + 50 <= 1200)%R /\
  exists n, (n <= 600)%nat /\
    modeSearch (dynamicData (Fin 300)) =
      (Fin (densityR (1 / 2 * 300 + 50) (INR n)), Fin (INR n)) /\
    ((1 / 2 * 300 + 50) / 2 - 1 < INR n < (1 / 2 * 300 + 50) / 2 + 1)%R /\
    (forall m, (m <= 600)%nat ->
       (densityR (1 / 2 * 300 + 50) (INR m) <= densityR (1 / 2 * 300 + 50) (INR n))%R).
Proof. split; [lra | apply (modeSearch_near_peak 300); lra]. Defined.

(** X10: when the effective temperature [T / 2 + 50] is not positive the
    curve is flat at [0]; the mode scan then returns density [0] at energy
    [0], and both the average energy and the percentage above the
    threshold are [0]. *)
Theorem cold_curve_outputs (T : R) (showCatalyst : bool) :
  (1 / 2 * T + 50 <= 0)%R ->
  modeSearch (dynamicData (Fin T)) = (Fin 0, Fin 0) /\
  E_mean (dynamicData (Fin T)) = Fin 0 /\
  percentageAbove showCatalyst (dynamicData (Fin T)) = Fin 0.
Proof.
  intros HT. rewrite curve_cold by exact HT.
  split; [| split].
  - assert (Hc : map (fun i => (INR i, 0%R)) (seq 0 (S energiesN)) =
      (INR 0, 0%R) :: map (fun i => (INR i, 0%R)) (seq 1 energiesN)) by reflexivity.
    rewrite Hc, modeSearch_cons.
    destruct (mode_fold (map (fun i => (INR i, 0%R)) (seq 1 energiesN)) 0 (INR 0))
      as (M & Ex & Hf & Halt & _).
    rewrite Hf. destruct Halt as [[-> ->] | [HM Hin]]; [reflexivity | exfalso].
    apply in_map_iff in Hin as (i & Heq & _). injection Heq as _ <-. lra.
  - rewrite E_mean_fin, massR_zero.
    destruct (Req_dec_T 0 0) as [_ | H]; [reflexivity | exfalso; apply H; reflexivity].
  - rewrite percentage_fin, massR_zero.
    destruct (Req_dec_T 0 0) as [_ | H]; [reflexivity | exfalso; apply H; reflexivity].
Qed.

Lemma cold_curve_outputs_witness :
  (1 / 2 * (-200) + 50 <= 0)%R /\
  (modeSearch (dynamicData (Fin (-200))) = (Fin 0, Fin 0) /\
   E_mean (dynamicData (Fin (-200))) = Fin 0 /\
   percentageAbove true (dynamicData (Fin (-200))) = Fin 0).
Proof. split; [lra | apply (cold_curve_outputs (-200) true); lra]. Defined.

(** X11: at every finite temperature the percentage of the curve's area
    above the activation threshold is a finite number between [0] and
    [100], and it is at least as large with the catalyst (threshold 300)
    as without it (threshold 400). *)
Theorem percentageAbove_bounds (T : R) :
  exists p q,
    percentageAbove true (dynamicData (Fin T)) = Fin p /\
    percentageAbove false (dynamicData (Fin T)) = Fin q /\
    (0 <= q <= p /\ p <= 100)%R.
Proof.
  destruct (curve_points T) as (pts & Hd & Hpts).
  rewrite Hd, !percentage_fin.
  eexists; eexists; split; [reflexivity | split; [reflexivity |]].
  assert (Hf : Forall (fun ef => 0 <= snd ef)%R pts)
    by (eapply Forall_impl; [| exact Hpts]; intros ef [_ H]; exact H).
  destruct (massAboveR_mono 300 400 pts ltac:(lra) Hf) as [[H4 H34] H3].
  pose proof (massR_nonneg pts Hf) as Hm.
  destruct (Req_dec_T (massR pts) 0) as [H0 | H0]; [lra |].
  assert (Hpos : (0 < massR pts)%R) by lra.
  repeat split.
  - apply Rmult_le_pos; [| left; apply Rinv_0_lt_compat, Hpos]. lra.
  - unfold Rdiv. apply Rmult_le_compat_r; [left; apply Rinv_0_lt_compat, Hpos | lra].
  - apply Rmult_le_reg_r with (massR pts); [exact Hpos |].
    unfold Rdiv. rewrite Rmult_assoc, Rinv_l by lra. lra.
Qed.

(** X12: at every finite temperature the average energy of the curve is a
    finite number in the energy range [[0, 600]]. *)
Theorem E_mean_range (T : R) :
  exists e, E_mean (dynamicData (Fin T)) = Fin e /\ (0 <= e <= 600)%R.
Proof.
  destruct (curve_points T) as (pts & Hd & Hpts).
  rewrite Hd, E_mean_fin. eexists; split; [reflexivity |].
  assert (Hf : Forall (fun ef => 0 <= snd ef)%R pts)
    by (eapply Forall_impl; [| exact Hpts]; intros ef [_ H]; exact H).
  pose proof (massR_nonneg pts Hf) as Hm.
  destruct (weightedR_bounds pts Hpts) as [Hw0 Hw1].
  destruct (Req_dec_T (massR pts) 0) as [H0 | H0]; [lra |].
  assert (Hpos : (0 < massR pts)%R) by lra.
  split.
  - apply Rmult_le_pos; [exact Hw0 | left; apply Rinv_0_lt_compat, Hpos].
  - apply Rmult_le_reg_r with (massR pts); [exact Hpos |].
    unfold Rdiv. rewrite Rmult_assoc, Rinv_l by lra. lra.
Qed.

(** * The colour of a snapshot curve *)

Module ColorFacts.

Import Color Strings.String.

Lemma round_fin (r : R) : JS.round (Fin r) = Fin (IZR (Zfloor (r + 1 / 2))).
Proof. reflexivity. Qed.

Lemma colorChannels_fin (T : R) :
  colorChannels (Fin T) =
  (Fin (IZR (Zfloor ((T - 100) / (500 - 100) * 255 + 1 / 2))),
   Fin (IZR (Zfloor ((1 - (T - 100) / (500 - 100)) * 255 + 1 / 2)))).
Proof.
  unfold colorChannels; cbv zeta.
  rewrite !sub_fin, div_fin by lra. rewrite sub_fin, !mul_fin, !round_fin.
  reflexivity.
Qed.

Lemma integerString_int (z : Z) :
  integerString (Fin (IZR z)) = DecimalString.NilZero.string_of_int (Z.to_int z).
Proof. cbn [integerString]. rewrite ZfloorZ. reflexivity. Qed.

(** X13: for a temperature of the slider's range [[100, 500]] the colour
    is the string ["rgb(red,0,blue)"] with the integers [red] and [blue]
    printed in decimal, both in [[0, 255]] and adding up to [255] or
    [256]. *)
Theorem getColorForTemperature_range (T : R) :
  (100 <= T <= 500)%R ->
  exists red blue : Z,
    colorChannels (Fin T) = (Fin (IZR red), Fin (IZR blue)) /\
    getColorForTemperature (Fin T) =
      ("rgb(" ++ DecimalString.NilZero.string_of_int (Z.to_int red) ++ ",0," ++
       DecimalString.NilZero.string_of_int (Z.to_int blue) ++ ")")%string /\
    (0 <= red <= 255)%Z /\ (0 <= blue <= 255)%Z /\ (255 <= red + blue <= 256)%Z.
Proof.
  intros HT.
  set (x := ((T - 100) / (500 - 100))%R).
  assert (Hx : (0 <= x <= 1)%R)
    by (unfold x; replace (500 - 100)%R with 400%R by ring; unfold Rdiv; split; lra).
  exists (Zfloor (x * 255 + 1 / 2)), (Zfloor ((1 - x) * 255 + 1 / 2)).
  assert (Hc : colorChannels (Fin T) =
    (Fin (IZR (Zfloor (x * 255 + 1 / 2))), Fin (IZR (Zfloor ((1 - x) * 255 + 1 / 2)))))
    by (rewrite colorChannels_fin; reflexivity).
  split; [exact Hc |]. split.
  { unfold getColorForTemperature. rewrite Hc, !integerString_int. reflexivity. }
  pose proof (Zfloor_bound (x * 255 + 1 / 2)) as [Hr1 Hr2].
  pose proof (Zfloor_bound ((1 - x) * 255 + 1 / 2)) as [Hb1 Hb2].
  set (r := Zfloor (x * 255 + 1 / 2)) in *.
  set (b := Zfloor ((1 - x) * 255 + 1 / 2)) in *.
  assert (Hr0 : (0 <= r)%Z) by (apply Zfloor_lub; simpl; lra).
  assert (Hb0 : (0 <= b)%Z) by (apply Zfloor_lub; simpl; lra).
  assert (Hr255 : (r < 256)%Z) by (apply lt_IZR; lra).
  assert (Hb255 : (b < 256)%Z) by (apply lt_IZR; lra).
  assert (Hsum1 : (254 < r + b)%Z) by (apply lt_IZR; rewrite plus_IZR; lra).
  assert (Hsum2 : (r + b <= 256)%Z) by (apply le_IZR; rewrite plus_IZR; lra).
  lia.
Qed.

Lemma getColorForTemperature_range_witness :
  (100 <= 300 <= 500)%R /\
  exists red blue : Z,
    colorChannels (Fin 300) = (Fin (IZR red), Fin (IZR blue)) /\
    getColorForTemperature (Fin 300) =
      ("rgb(" ++ DecimalString.NilZero.string_of_int (Z.to_int red) ++ ",0," ++
       DecimalString.NilZero.string_of_int (Z.to_int blue) ++ ")")%string /\
    (0 <= red <= 255)%Z /\ (0 <= blue <= 255)%Z /\ (255 <= red + blue <= 256)%Z.
Proof. split; [lra | apply (getColorForTemperature_range 300); lra]. Defined.

(** X14: at finite temperatures the colour moves monotonically: a hotter
    temperature never has less red nor more blue than a colder one. *)
Theorem colorChannels_monotone (T1 T2 : R) :
  (T1 <= T2)%R ->
  exists r1 b1 r2 b2 : Z,
    colorChannels (Fin T1) = (Fin (IZR r1), Fin (IZR b1)) /\
    colorChannels (Fin T2) = (Fin (IZR r2), Fin (IZR b2)) /\
    (r1 <= r2)%Z /\ (b2 <= b1)%Z.
Proof.
  intros HT. rewrite !colorChannels_fin.
  do 4 eexists. split; [reflexivity | split; [reflexivity |]].
  assert (Hd : ((T1 - 100) / (500 - 100) <= (T2 - 100) / (500 - 100))%R)
    by (unfold Rdiv; apply Rmult_le_compat_r; [lra | lra]).
  split; apply Zfloor_le; nra.
Qed.

Lemma colorChannels_monotone_witness :
  (200 <= 400)%R /\
  exists r1 b1 r2 b2 : Z,
    colorChannels (Fin 200) = (Fin (IZR r1), Fin (IZR b1)) /\
    colorChannels (Fin 400) = (Fin (IZR r2), Fin (IZR b2)) /\
    (r1 <= r2)%Z /\ (b2 <= b1)%Z.
Proof. split; [lra | apply (colorChannels_monotone 200 400); lra]. Defined.

End ColorFacts.
